(** * Scene graph and mesh drawer of the CS405 project 3 renderer

    A shallow embedding of [src/meshDrawer.js] (classes [MeshDrawer] and
    [SceneNode]) and of [src/unnamed/part_000] (a second [SceneNode]).

    - JavaScript objects live in a store: a [SceneNode] reference is an index
      into a list of node objects, so that [children.push] on a parent is
      visible through every reference to it.
    - The graphics context [gl] is modelled by the sequence of calls made
      on it.
    - [MatrixMult], the [TRS] class and [isPowerOf2] are collaborators that
      are not part of the sources; they are section variables. *)

From Stdlib Require Import ZArith Lia.
From Stdlib Require Uint63 PrimFloat.
From stdpp Require Import base option list.

Set Default Proof Using "Type".
Local Open Scope nat_scope.

(** ** Scene nodes in a store *)

(** References to [SceneNode] and to [MeshDrawer] objects. *)
Abbreviation ref := nat.
Abbreviation meshref := nat.

Section SceneGraph.

Variable matrix : Type.
Variable TRS : Type.
Variable MatrixMult : matrix -> matrix -> matrix.
Variable getTransformationMatrix : TRS -> matrix.

(** The four fields set by the constructor. [meshDrawer] and [parent] are
    nullable in the source. *)
Record SceneNode := mkSceneNode {
  meshDrawer : option meshref;
  trs : TRS;
  parent : option ref;
  children : list ref
}.

(** The store: a reference is an index into it. *)
Local Abbreviation heap := (list SceneNode).

(** [addChild(node) { this.children.push(node); }]. In JavaScript [this]
    always denotes a live object; at an index beyond the store, which no
    execution reaches, [alter] leaves the store as it is. *)
Definition push_child (node : ref) (this : SceneNode) : SceneNode :=
  mkSceneNode (meshDrawer this) (trs this) (parent this) (children this ++ [node]).

Definition addChild (h : heap) (this : ref) (node : ref) : heap :=
  alter (push_child node) this h.

(** [new SceneNode(meshDrawer, trs, parent)] of [src/meshDrawer.js]: the
    object is allocated at the end of the store, its fields are set, then
    [parent?.addChild(this)]. Returns the store and the new reference. *)
Definition constructor (h : heap) (meshDrawer_ : option meshref) (trs_ : TRS)
    (parent_ : option ref) : heap * ref :=
  let this := length h in
  let h := h ++ [mkSceneNode meshDrawer_ trs_ parent_ []] in
  match parent_ with
  | Some p => (addChild h p this, this)
  | None => (h, this)
  end.

(** The constructor of [src/unnamed/part_000]: [meshDrawer || null], then
    [if (this.parent) this.parent.addChild(this)]. *)
Definition constructor_part000 (h : heap) (meshDrawer_ : option meshref) (trs_ : TRS)
    (parent_ : option ref) : heap * ref :=
  let this := length h in
  let node := mkSceneNode (match meshDrawer_ with Some m => Some m | None => None end)
                trs_ parent_ [] in
  let h := h ++ [node] in
  match parent node with
  | Some p => (addChild h p this, this)
  | None => (h, this)
  end.

(** ** Drawing *)

(** What a traversal does that can be observed: it enters [SceneNode.draw]
    on a node with four matrices, and it calls [MeshDrawer.draw] on the
    mesh of a node with four matrices. *)
Inductive event :=
| EvNode (node : ref) (mvp modelView normalMatrix modelMatrix : matrix)
| EvMesh (owner : ref) (mesh : meshref) (mvp modelView normalMatrix modelMatrix : matrix).

(** [array.forEach(callback)] and [for (const x of array)], for a callback
    that may raise: the calls are made in index order and the first one that
    fails aborts the loop. *)
Fixpoint forEach {A} (l : list A) (callback : A -> option (list event))
    : option (list event) :=
  match l with
  | [] => Some []
  | x :: l =>
      match callback x with
      | Some tr =>
          match forEach l callback with
          | Some rest => Some (tr ++ rest)
          | None => None
          end
      | None => None
      end
  end.

Definition mesh_draw (owner : ref) (m : option meshref)
    (mvp modelView normalMatrix modelMatrix : matrix) : list event :=
  match m with
  | Some m => [EvMesh owner m mvp modelView normalMatrix modelMatrix]
  | None => []
  end.

(** [SceneNode.draw] of [src/meshDrawer.js]. [fuel] bounds the depth of the
    call stack; [None] is a stack overflow or a dangling reference. *)
Fixpoint draw (fuel : nat) (h : heap) (this : ref)
    (mvp modelView normalMatrix modelMatrix : matrix) : option (list event) :=
  match fuel with
  | 0 => None
  | S fuel =>
      match h !! this with
      | None => None
      | Some obj =>
          let transformationMatrix := getTransformationMatrix (trs obj) in
          let transformedMvp := MatrixMult mvp transformationMatrix in
          let transformedNormals := MatrixMult normalMatrix transformationMatrix in
          let transformedModelView := MatrixMult modelView transformationMatrix in
          let transformedModel := MatrixMult modelMatrix transformationMatrix in
          match forEach (children obj) (fun child =>
                  draw fuel h child transformedMvp transformedModelView
                       transformedNormals transformedModel) with
          | None => None
          | Some below =>
              Some (EvNode this mvp modelView normalMatrix modelMatrix
                    :: below
                    ++ mesh_draw this (meshDrawer obj) transformedMvp
                         transformedModelView transformedNormals transformedModel)
          end
      end
  end.

(** [SceneNode.draw] of [src/unnamed/part_000]: the mesh is drawn before the
    children are visited. *)
Fixpoint draw_part000 (fuel : nat) (h : heap) (this : ref)
    (mvpMatrix modelViewMatrix normalMatrix modelMatrix : matrix)
    : option (list event) :=
  match fuel with
  | 0 => None
  | S fuel =>
      match h !! this with
      | None => None
      | Some obj =>
          let nodeTransform := getTransformationMatrix (trs obj) in
          let updatedMVP := MatrixMult mvpMatrix nodeTransform in
          let updatedModelView := MatrixMult modelViewMatrix nodeTransform in
          let updatedNormal := MatrixMult normalMatrix nodeTransform in
          let updatedModel := MatrixMult modelMatrix nodeTransform in
          let own := mesh_draw this (meshDrawer obj) updatedMVP updatedModelView
                       updatedNormal updatedModel in
          match forEach (children obj) (fun child =>
                  draw_part000 fuel h child updatedMVP updatedModelView
                               updatedNormal updatedModel) with
          | None => None
          | Some below =>
              Some (EvNode this mvpMatrix modelViewMatrix normalMatrix modelMatrix
                    :: own ++ below)
          end
      end
  end.

(** ** Finite scene trees

    The object graph below a node, unfolded: [unfold] follows the
    [children] arrays and succeeds exactly when that graph is finite and
    free of cycles. The positions of the resulting tree are the nodes reached
    by a traversal; the tree is a scene tree of distinct objects when its
    node references are pairwise distinct ([NoDup (ids t)]). *)
#[warnings="-register-all"] Inductive tree :=
| Tree (id : ref) (mesh : option meshref) (local : TRS) (kids : list tree).

Fixpoint unfold (fuel : nat) (h : heap) (n : ref) : option tree :=
  match fuel with
  | 0 => None
  | S fuel =>
      match h !! n with
      | None => None
      | Some obj =>
          match mapM (unfold fuel h) (children obj) with
          | None => None
          | Some ks => Some (Tree n (meshDrawer obj) (trs obj) ks)
          end
      end
  end.

Definition root_id (t : tree) : ref := let 'Tree n _ _ _ := t in n.
Definition root_mesh (t : tree) : option meshref := let 'Tree _ m _ _ := t in m.

(** Nodes in the order a traversal enters them. *)
Fixpoint nodes (t : tree) : list (ref * option meshref) :=
  let 'Tree n m _ ks := t in (n, m) :: concat (map nodes ks).

Definition ids (t : tree) : list ref := (nodes t).*1.

(** The nodes that have a mesh, each with its mesh. *)
Definition mesh_nodes (t : tree) : list (ref * meshref) :=
  omap (fun nm => pair nm.1 <$> nm.2) (nodes t).

(** The node at a position: [p] lists the child indices from the root, so
    its length is the depth of the node. *)
Fixpoint at_path (t : tree) (p : list nat) {struct p} : option tree :=
  match p with
  | [] => Some t
  | i :: p =>
      let 'Tree _ _ _ ks := t in
      match ks !! i with
      | Some k => at_path k p
      | None => None
      end
  end.

(** The local transforms met from the root down to position [p], root
    first. *)
Fixpoint locals_along (t : tree) (p : list nat) {struct p} : list matrix :=
  let 'Tree _ _ L ks := t in
  getTransformationMatrix L ::
  match p with
  | [] => []
  | i :: p =>
      match ks !! i with
      | Some k => locals_along k p
      | None => []
      end
  end.

(** [L0 * L1 * ... * Ld], the first factor leftmost. *)
Definition product (identity : matrix) (ls : list matrix) : matrix :=
  match ls with
  | [] => identity
  | L0 :: ls => fold_left MatrixMult ls L0
  end.

(** The trace of a traversal of an unfolded tree: [tdraw] calls the mesh
    after the children, as [draw] does, and [tdraw_part000] before them, as
    [draw_part000] does. *)
Fixpoint tdraw (t : tree) (a b c d : matrix) : list event :=
  let 'Tree n m L ks := t in
  let T := getTransformationMatrix L in
  EvNode n a b c d
  :: concat (map (fun k => tdraw k (MatrixMult a T) (MatrixMult b T)
                                   (MatrixMult c T) (MatrixMult d T)) ks)
  ++ mesh_draw n m (MatrixMult a T) (MatrixMult b T) (MatrixMult c T) (MatrixMult d T).

Fixpoint tdraw_part000 (t : tree) (a b c d : matrix) : list event :=
  let 'Tree n m L ks := t in
  let T := getTransformationMatrix L in
  EvNode n a b c d
  :: mesh_draw n m (MatrixMult a T) (MatrixMult b T) (MatrixMult c T) (MatrixMult d T)
  ++ concat (map (fun k => tdraw_part000 k (MatrixMult a T) (MatrixMult b T)
                                            (MatrixMult c T) (MatrixMult d T)) ks).

(** ** Reading a trace *)

Definition entry_of (e : event) : option ref :=
  match e with EvNode n _ _ _ _ => Some n | EvMesh _ _ _ _ _ _ => None end.

Definition mesh_call_of (e : event) : option (ref * meshref) :=
  match e with EvNode _ _ _ _ _ => None | EvMesh n m _ _ _ _ => Some (n, m) end.

(** The nodes on which [SceneNode.draw] was entered, in order. *)
Definition entered (tr : list event) : list ref := omap entry_of tr.

(** The calls of [MeshDrawer.draw]: which node called it, on which mesh. *)
Definition mesh_calls (tr : list event) : list (ref * meshref) := omap mesh_call_of tr.

(** Two traces make the same calls with the same arguments, and enter the
    nodes in the same order. *)
Definition same_calls (tr tr' : list event) : Prop :=
  tr ≡ₚ tr' /\ entered tr = entered tr'.

(** The shape of a trace of a node: the entry, the traces of the children
    in the order of the [children] array, and the call on the own mesh
    either last or first. *)
Definition children_then_mesh
    (drawfn : nat -> heap -> ref -> matrix -> matrix -> matrix -> matrix ->
              option (list event)) : Prop :=
  forall fuel h n obj a b c d tr,
    h !! n = Some obj ->
    drawfn (S fuel) h n a b c d = Some tr ->
    let T := getTransformationMatrix (trs obj) in
    exists kts,
      Forall2 (fun child kt =>
                 drawfn fuel h child (MatrixMult a T) (MatrixMult b T)
                        (MatrixMult c T) (MatrixMult d T) = Some kt)
              (children obj) kts /\
      tr = EvNode n a b c d :: concat kts
           ++ mesh_draw n (meshDrawer obj) (MatrixMult a T) (MatrixMult b T)
                (MatrixMult c T) (MatrixMult d T).

Definition mesh_then_children
    (drawfn : nat -> heap -> ref -> matrix -> matrix -> matrix -> matrix ->
              option (list event)) : Prop :=
  forall fuel h n obj a b c d tr,
    h !! n = Some obj ->
    drawfn (S fuel) h n a b c d = Some tr ->
    let T := getTransformationMatrix (trs obj) in
    exists kts,
      Forall2 (fun child kt =>
                 drawfn fuel h child (MatrixMult a T) (MatrixMult b T)
                        (MatrixMult c T) (MatrixMult d T) = Some kt)
              (children obj) kts /\
      tr = EvNode n a b c d
           :: mesh_draw n (meshDrawer obj) (MatrixMult a T) (MatrixMult b T)
                (MatrixMult c T) (MatrixMult d T)
           ++ concat kts.

(** ** Stores made by the constructor alone *)

Inductive built : heap -> Prop :=
| built_empty : built []
| built_root h m t :
    built h -> built (constructor h m t None).1
| built_child h m t p :
    built h -> p < length h -> built (constructor h m t (Some p)).1
| built_root_part000 h m t :
    built h -> built (constructor_part000 h m t None).1
| built_child_part000 h m t p :
    built h -> p < length h -> built (constructor_part000 h m t (Some p)).1.

(** The [children] arrays hold references into the store. *)
Definition children_bounded (h : heap) : Prop :=
  forall n obj c, h !! n = Some obj -> c ∈ children obj -> c < length h.

(** A child is newer than the node that lists it, and names that node as
    its parent. *)
Definition children_increasing (h : heap) : Prop :=
  forall n obj c, h !! n = Some obj -> c ∈ children obj -> n < c.

Definition children_have_parent (h : heap) : Prop :=
  forall n obj c, h !! n = Some obj -> c ∈ children obj ->
    exists cobj, h !! c = Some cobj /\ parent cobj = Some n.

(** The node reached from [x] by following [parent] [j] times. *)
Fixpoint ancestor (h : heap) (j : nat) (x : ref) : option ref :=
  match j with
  | 0 => Some x
  | S j =>
      match ancestor h j x with
      | Some y =>
          match h !! y with
          | Some obj => parent obj
          | None => None
          end
      | None => None
      end
  end.

(** A node with a parent is listed exactly once by that parent. *)
Definition parent_lists_child_once (h : heap) : Prop :=
  forall n obj p,
    h !! n = Some obj -> parent obj = Some p ->
    exists pobj, h !! p = Some pobj /\ count_occ Nat.eq_dec (children pobj) n = 1.

(** ** Further vocabulary *)

(** The number of nodes on the longest path from the root of an unfolded
    tree down to a leaf: the deepest nesting of [draw] calls. *)
Fixpoint height (t : tree) : nat :=
  let 'Tree _ _ _ ks := t in S (list_max (map height ks)).

(** An event with its four matrices multiplied on the left, each channel by
    its own factor. *)
Definition left_mult (A B C D : matrix) (e : event) : event :=
  match e with
  | EvNode n a b c d =>
      EvNode n (MatrixMult A a) (MatrixMult B b) (MatrixMult C c) (MatrixMult D d)
  | EvMesh n m a b c d =>
      EvMesh n m (MatrixMult A a) (MatrixMult B b) (MatrixMult C c) (MatrixMult D d)
  end.

(** Two objects with the same mesh, transform and children; the parents may
    differ. *)
Definition same_below (o1 o2 : SceneNode) : Prop :=
  meshDrawer o1 = meshDrawer o2 /\ trs o1 = trs o2 /\ children o1 = children o2.

End SceneGraph.

Arguments height {TRS}.
Arguments left_mult {matrix}.
Arguments same_below {TRS}.

Abbreviation heap TRS := (list (SceneNode TRS)).

Arguments mkSceneNode {TRS}.
Arguments meshDrawer {TRS}.
Arguments trs {TRS}.
Arguments parent {TRS}.
Arguments children {TRS}.
Arguments push_child {TRS}.
Arguments addChild {TRS}.
Arguments constructor {TRS}.
Arguments constructor_part000 {TRS}.
Arguments EvNode {matrix}.
Arguments EvMesh {matrix}.
Arguments forEach {matrix A}.
Arguments mesh_draw {matrix}.
Arguments draw {matrix TRS}.
Arguments draw_part000 {matrix TRS}.
Arguments Tree {TRS}.
Arguments unfold {TRS}.
Arguments root_id {TRS}.
Arguments root_mesh {TRS}.
Arguments nodes {TRS}.
Arguments ids {TRS}.
Arguments mesh_nodes {TRS}.
Arguments at_path {TRS}.
Arguments locals_along {matrix TRS}.
Arguments product {matrix}.
Arguments tdraw {matrix TRS}.
Arguments tdraw_part000 {matrix TRS}.
Arguments entry_of {matrix}.
Arguments mesh_call_of {matrix}.
Arguments entered {matrix}.
Arguments mesh_calls {matrix}.
Arguments same_calls {matrix}.
Arguments children_then_mesh {matrix TRS}.
Arguments mesh_then_children {matrix TRS}.
Arguments built {TRS}.
Arguments children_bounded {TRS}.
Arguments children_increasing {TRS}.
Arguments children_have_parent {TRS}.
Arguments ancestor {TRS}.
Arguments parent_lists_child_once {TRS}.

(** ** The mesh drawer

    [gl] is the graphics context; a method of [MeshDrawer] is modelled by
    the object it leaves and the calls it makes on [gl], in order. Both
    [MeshDrawer] classes of [src/meshDrawer.js] are covered: they differ in
    field names and in one call of [setTexture]. *)
Module MeshDrawer.

Inductive glenum :=
| ARRAY_BUFFER | STATIC_DRAW | FLOAT | TRIANGLES
| TEXTURE_2D | TEXTURE0 | RGB | UNSIGNED_BYTE
| TEXTURE_MIN_FILTER | TEXTURE_WRAP_S | TEXTURE_WRAP_T | LINEAR | CLAMP_TO_EDGE.

(** JavaScript numbers are IEEE 754 doubles, which is what the primitive
    type [PrimFloat.float] is, with the same rounding. [number_of_nat] is
    the number that an array length or an integer literal denotes; it is
    exact below [2^53], beyond every length an array can have. *)
Definition number_of_Z (z : Z) : PrimFloat.float :=
  PrimFloat.of_uint63 (Uint63.of_Z z).

Definition number_of_nat (n : nat) : PrimFloat.float := number_of_Z (Z.of_nat n).

(** [all_from test count k]: [test] holds of the [count] integers from [k]
    on. *)
Fixpoint all_from (test : Z -> bool) (count : nat) (k : Z) : bool :=
  match count with
  | 0 => true
  | S count => test k && all_from test count (k + 1)%Z
  end.

(** The quotient of [3 * k] by 3 is the number [k]. *)
Definition third_exact (k : Z) : bool :=
  PrimFloat.Leibniz.eqb
    (PrimFloat.div (number_of_Z (3 * k)) (number_of_Z 3)) (number_of_Z k).

(** The quotient of [3 * k + r] by 3 lies strictly between the numbers [k]
    and [k + 1]. *)
Definition third_between (r k : Z) : bool :=
  PrimFloat.ltb (number_of_Z k)
    (PrimFloat.div (number_of_Z (3 * k + r)) (number_of_Z 3))
  && PrimFloat.ltb (PrimFloat.div (number_of_Z (3 * k + r)) (number_of_Z 3))
       (number_of_Z (k + 1)).

(** Of an image element only the two dimensions are read. *)
Record image := mkImage { width : Z; height : Z }.

Section Methods.

Variable matrix : Type.
(** Array elements as passed to [setMesh], and what [new Float32Array]
    makes of an array. *)
Variable number : Type.
Variable f32array : Type.
Variable Float32Array : list number -> f32array.
(** The helper [isPowerOf2] is not part of the sources. *)
Variable isPowerOf2 : Z -> bool.

Inductive glcall :=
| useProgram (program : nat)
| bindTexture (target : glenum) (texture : nat)
| texImage2D (target : glenum) (level : Z) (internalformat format type : glenum)
    (source : image)
| generateMipmap (target : glenum)
| texParameteri (target pname param : glenum)
| activeTexture (unit : glenum)
| uniform1i (location : nat) (v : Z)
| uniformMatrix4fv (location : nat) (transpose : bool) (value : matrix)
| bindBuffer (target : glenum) (buffer : nat)
| bufferData (target : glenum) (data : f32array) (usage : glenum)
| vertexAttribPointer (index : nat) (size : Z) (type : glenum) (normalized : bool)
    (stride offset : Z)
| enableVertexAttribArray (index : nat)
| drawArrays (mode : glenum) (first : Z) (count : PrimFloat.float).

Record perAttribute := mkPerAttribute { position : nat; normal : nat; texCoord : nat }.

Record uniforms := mkUniforms {
  mvp : nat; mv : nat; normalMV : nat; modelMatrix : nat;
  isLightSource_loc : nat; tex : nat
}.

(** [numTriangles] is a JavaScript number, the quotient of a length by 3
    as the division of doubles gives it. *)
Record t := mk {
  prog : nat;
  attribLocations : perAttribute;
  uniformLocations : uniforms;
  buffers : perAttribute;
  texture : nat;
  numTriangles : PrimFloat.float;
  isLightSource : bool
}.

(** [new MeshDrawer(isLightSource)]. The handles that [InitShaderProgram],
    [gl.getAttribLocation], [gl.getUniformLocation], [gl.createBuffer] and
    [gl.createTexture] return are arguments. *)
Definition constructor (isLightSource : bool) (prog : nat)
    (attribLocations : perAttribute) (uniformLocations : uniforms)
    (buffers : perAttribute) (texture : nat) : t :=
  mk prog attribLocations uniformLocations buffers texture (number_of_Z 0)
    isLightSource.

(** [#bindAndBufferData] ([#uploadBuffer] in the second class). *)
Definition bindAndBufferData (buffer : nat) (data : list number) : list glcall :=
  [bindBuffer ARRAY_BUFFER buffer;
   bufferData ARRAY_BUFFER (Float32Array data) STATIC_DRAW].

Definition setMesh (this : t) (vertPos texCoords normals : list number)
    : t * list glcall :=
  (mk (prog this) (attribLocations this) (uniformLocations this) (buffers this)
      (texture this)
      (PrimFloat.div (number_of_nat (length vertPos)) (number_of_Z 3))
      (isLightSource this),
   bindAndBufferData (position (buffers this)) vertPos
   ++ bindAndBufferData (normal (buffers this)) normals
   ++ bindAndBufferData (texCoord (buffers this)) texCoords).

(** [#enableVertexAttrib] ([#enableAttribute] in the second class). *)
Definition enableVertexAttrib (location buffer : nat) (size : Z) : list glcall :=
  [bindBuffer ARRAY_BUFFER buffer;
   vertexAttribPointer location size FLOAT false 0 0;
   enableVertexAttribArray location].

Definition draw (this : t) (matrixMVP matrixMV matrixNormal modelMatrix_ : matrix)
    : list glcall :=
  [useProgram (prog this);
   bindTexture TEXTURE_2D (texture this);
   uniformMatrix4fv (mvp (uniformLocations this)) false matrixMVP;
   uniformMatrix4fv (mv (uniformLocations this)) false matrixMV;
   uniformMatrix4fv (normalMV (uniformLocations this)) false matrixNormal;
   uniformMatrix4fv (modelMatrix (uniformLocations this)) false modelMatrix_;
   uniform1i (isLightSource_loc (uniformLocations this)) (Z.b2z (isLightSource this))]
  ++ enableVertexAttrib (position (attribLocations this)) (position (buffers this)) 3
  ++ enableVertexAttrib (normal (attribLocations this)) (normal (buffers this)) 3
  ++ enableVertexAttrib (texCoord (attribLocations this)) (texCoord (buffers this)) 2
  ++ [drawArrays TRIANGLES 0 (numTriangles this)].

(** The calls that configure the texture after the upload. *)
Definition configure (img : image) : list glcall :=
  if isPowerOf2 (width img) && isPowerOf2 (height img) then
    [generateMipmap TEXTURE_2D]
  else
    [texParameteri TEXTURE_2D TEXTURE_MIN_FILTER LINEAR;
     texParameteri TEXTURE_2D TEXTURE_WRAP_S CLAMP_TO_EDGE;
     texParameteri TEXTURE_2D TEXTURE_WRAP_T CLAMP_TO_EDGE].

(** [setTexture] of the first class. *)
Definition setTexture (this : t) (img : image) : list glcall :=
  [bindTexture TEXTURE_2D (texture this);
   texImage2D TEXTURE_2D 0 RGB RGB UNSIGNED_BYTE img]
  ++ configure img
  ++ [useProgram (prog this);
      activeTexture TEXTURE0;
      bindTexture TEXTURE_2D (texture this);
      uniform1i (tex (uniformLocations this)) 0].

(** [setTexture] of the second class: no [gl.useProgram]. *)
Definition setTexture_second (this : t) (img : image) : list glcall :=
  [bindTexture TEXTURE_2D (texture this);
   texImage2D TEXTURE_2D 0 RGB RGB UNSIGNED_BYTE img]
  ++ configure img
  ++ [activeTexture TEXTURE0;
      bindTexture TEXTURE_2D (texture this);
      uniform1i (tex (uniformLocations this)) 0].

(** The vertex count of the draw calls in a sequence of calls. *)
Definition drawn_counts (calls : list glcall) : list PrimFloat.float :=
  omap (fun c => match c with drawArrays TRIANGLES _ n => Some n | _ => None end) calls.

(** ** The graphics context

    The part of the WebGL state that the calls of [MeshDrawer] on buffers,
    vertex attributes and uniforms act on, and what each of these calls does
    to it according to the WebGL specification. The context is not part of
    the sources. Textures are not tracked. A uniform location is taken to
    belong to the program in use. *)
Record glstate := mkGlstate {
  currentProgram : option nat;
  arrayBufferBinding : option nat;
  bufferContents : nat -> option f32array;
  attribPointer : nat -> option (option nat * Z);
  attribEnabled : nat -> bool;
  uniformInt : nat -> nat -> option Z;
  uniformMatrix : nat -> nat -> option matrix
}.

Definition upd {V} (f : nat -> V) (k : nat) (v : V) : nat -> V :=
  fun x => if decide (x = k) then v else f x.

Definition upd2 {V} (f : nat -> nat -> V) (p k : nat) (v : V) : nat -> nat -> V :=
  fun q x => if decide (q = p) then upd (f p) k v x else f q x.

Definition exec (s : glstate) (call : glcall) : glstate :=
  match call with
  | useProgram p =>
      mkGlstate (Some p) (arrayBufferBinding s) (bufferContents s) (attribPointer s)
        (attribEnabled s) (uniformInt s) (uniformMatrix s)
  | bindBuffer ARRAY_BUFFER b =>
      mkGlstate (currentProgram s) (Some b) (bufferContents s) (attribPointer s)
        (attribEnabled s) (uniformInt s) (uniformMatrix s)
  | bufferData ARRAY_BUFFER data _ =>
      match arrayBufferBinding s with
      | Some b =>
          mkGlstate (currentProgram s) (arrayBufferBinding s)
            (upd (bufferContents s) b (Some data)) (attribPointer s)
            (attribEnabled s) (uniformInt s) (uniformMatrix s)
      | None => s
      end
  | vertexAttribPointer index size _ _ _ _ =>
      mkGlstate (currentProgram s) (arrayBufferBinding s) (bufferContents s)
        (upd (attribPointer s) index (Some (arrayBufferBinding s, size)))
        (attribEnabled s) (uniformInt s) (uniformMatrix s)
  | enableVertexAttribArray index =>
      mkGlstate (currentProgram s) (arrayBufferBinding s) (bufferContents s)
        (attribPointer s) (upd (attribEnabled s) index true)
        (uniformInt s) (uniformMatrix s)
  | uniform1i location v =>
      match currentProgram s with
      | Some p =>
          mkGlstate (currentProgram s) (arrayBufferBinding s) (bufferContents s)
            (attribPointer s) (attribEnabled s)
            (upd2 (uniformInt s) p location (Some v)) (uniformMatrix s)
      | None => s
      end
  | uniformMatrix4fv location _ value =>
      match currentProgram s with
      | Some p =>
          mkGlstate (currentProgram s) (arrayBufferBinding s) (bufferContents s)
            (attribPointer s) (attribEnabled s) (uniformInt s)
            (upd2 (uniformMatrix s) p location (Some value))
      | None => s
      end
  | _ => s
  end.

(** The context after a sequence of calls. *)
Definition run (s : glstate) (calls : list glcall) : glstate :=
  fold_left exec calls s.

(** What a vertex attribute reads when a draw call is issued: the size and
    the contents of the buffer it points to, if it is enabled. *)
Definition attribute_source (s : glstate) (index : nat) : option (f32array * Z) :=
  if attribEnabled s index then
    match attribPointer s index with
    | Some (Some b, size) =>
        match bufferContents s b with
        | Some data => Some (data, size)
        | None => None
        end
    | _ => None
    end
  else None.

End Methods.

Arguments useProgram {matrix f32array}.
Arguments bindTexture {matrix f32array}.
Arguments texImage2D {matrix f32array}.
Arguments generateMipmap {matrix f32array}.
Arguments texParameteri {matrix f32array}.
Arguments activeTexture {matrix f32array}.
Arguments uniform1i {matrix f32array}.
Arguments uniformMatrix4fv {matrix f32array}.
Arguments bindBuffer {matrix f32array}.
Arguments bufferData {matrix f32array}.
Arguments vertexAttribPointer {matrix f32array}.
Arguments enableVertexAttribArray {matrix f32array}.
Arguments drawArrays {matrix f32array}.
Arguments setMesh matrix {number f32array}.
Arguments draw {matrix} f32array.
Arguments drawn_counts {matrix f32array}.
Arguments mkGlstate {matrix f32array}.
Arguments currentProgram {matrix f32array}.
Arguments arrayBufferBinding {matrix f32array}.
Arguments bufferContents {matrix f32array}.
Arguments attribPointer {matrix f32array}.
Arguments attribEnabled {matrix f32array}.
Arguments uniformInt {matrix f32array}.
Arguments uniformMatrix {matrix f32array}.
Arguments exec {matrix f32array}.
Arguments run {matrix f32array}.
Arguments attribute_source {matrix f32array}.

(** [v] is [2^k] for a natural [k]. *)
Definition power_of_two (v : Z) : Prop := exists k, (0 <= k)%Z /\ v = (2 ^ k)%Z.

End MeshDrawer.

(** ** A concrete scene

    4x4 integer matrices, a transform made of a uniform scale followed by a
    translation, and a scene of six nodes built by constructor calls. *)
Module Example.

Local Open Scope Z_scope.

Definition vec4 : Type := Z * Z * Z * Z.
Definition mat4 : Type := vec4 * vec4 * vec4 * vec4.

Definition dot (u v : vec4) : Z :=
  let '(a, b, c, d) := u in
  let '(x, y, z, w) := v in
  a * x + b * y + c * z + d * w.

Definition column (i : nat) (B : mat4) : vec4 :=
  let '(r1, r2, r3, r4) := B in
  let pick (r : vec4) :=
    let '(a, b, c, d) := r in
    match i with O => a | 1%nat => b | 2%nat => c | _ => d end in
  (pick r1, pick r2, pick r3, pick r4).

Definition row_times (r : vec4) (B : mat4) : vec4 :=
  (dot r (column 0 B), dot r (column 1 B), dot r (column 2 B), dot r (column 3 B)).

Definition mult (A B : mat4) : mat4 :=
  let '(r1, r2, r3, r4) := A in
  (row_times r1 B, row_times r2 B, row_times r3 B, row_times r4 B).

Definition identity : mat4 :=
  ((1, 0, 0, 0), (0, 1, 0, 0), (0, 0, 1, 0), (0, 0, 0, 1)).

Record TRS := mkTRS { scale : Z; tx : Z; ty : Z; tz : Z }.

Definition getTransformationMatrix (t : TRS) : mat4 :=
  ((scale t, 0, 0, tx t), (0, scale t, 0, ty t), (0, 0, scale t, tz t), (0, 0, 0, 1)).

Definition T0 := mkTRS 2 1 0 0.
Definition T1 := mkTRS 1 0 3 0.
Definition T2 := mkTRS 3 0 0 5.
Definition T3 := mkTRS 1 7 0 0.
Definition T4 := mkTRS 2 0 1 1.
Definition T5 := mkTRS 1 4 4 4.

(** Node 0 is the root; 1 and 2 are its children; 3 is below 1, 4 below 3,
    5 below 2. Node 2 has no mesh. *)
Definition scene : heap TRS :=
  let h := (constructor [] (Some 10%nat) T0 None).1 in
  let h := (constructor h (Some 11%nat) T1 (Some 0%nat)).1 in
  let h := (constructor_part000 h None T2 (Some 0%nat)).1 in
  let h := (constructor h (Some 13%nat) T3 (Some 1%nat)).1 in
  let h := (constructor_part000 h (Some 14%nat) T4 (Some 3%nat)).1 in
  (constructor h (Some 15%nat) T5 (Some 2%nat)).1.

Definition scene_tree : tree TRS :=
  (Tree 0 (Some 10) T0
     [Tree 1 (Some 11) T1 [Tree 3 (Some 13) T3 [Tree 4 (Some 14) T4 []]];
      Tree 2 None T2 [Tree 5 (Some 15) T5 []]])%nat.

(** A root with a mesh and one child with a mesh. *)
Definition pair_scene : heap TRS :=
  let h := (constructor [] (Some 10%nat) T0 None).1 in
  (constructor h (Some 11%nat) T1 (Some 0%nat)).1.

(** [pair_scene] after [addChild] of the root to its own child: the
    children links form a cycle. *)
Definition cyclic_scene : heap TRS := addChild pair_scene 1%nat 0%nat.

(** Node 3 is made as a child of 1 and then also added to 2. *)
Definition shared_scene : heap TRS :=
  let h := (constructor [] (Some 10%nat) T0 None).1 in
  let h := (constructor h (Some 11%nat) T1 (Some 0%nat)).1 in
  let h := (constructor h None T2 (Some 0%nat)).1 in
  let h := (constructor h (Some 13%nat) T3 (Some 1%nat)).1 in
  addChild h 2%nat 3%nat.

Definition shared_tree : tree TRS :=
  (Tree 0 (Some 10) T0
     [Tree 1 (Some 11) T1 [Tree 3 (Some 13) T3 []];
      Tree 2 None T2 [Tree 3 (Some 13) T3 []]])%nat.

(** A decision procedure for powers of two, for the examples. *)
Definition isPowerOf2 (v : Z) : bool := v =? 2 ^ Z.log2 v.

Definition drawer : MeshDrawer.t :=
  (MeshDrawer.constructor false 1
     (MeshDrawer.mkPerAttribute 0 1 2)
     (MeshDrawer.mkUniforms 0 1 2 3 4 5)
     (MeshDrawer.mkPerAttribute 20 21 22) 30)%nat.

(** A context in which nothing is bound or set. *)
Definition blank : MeshDrawer.glstate mat4 (list Z) :=
  MeshDrawer.mkGlstate None None (fun _ => None) (fun _ => None) (fun _ => false)
    (fun _ _ => None) (fun _ _ => None).

End Example.

(** * Properties of the scene graph *)

Section SceneGraphTheory.

Context {matrix TRS : Type}.
Variable MatrixMult : matrix -> matrix -> matrix.
Variable getTransformationMatrix : TRS -> matrix.

Local Abbreviation draw := (draw MatrixMult getTransformationMatrix).
Local Abbreviation draw_part000 := (draw_part000 MatrixMult getTransformationMatrix).
Local Abbreviation tdraw := (tdraw MatrixMult getTransformationMatrix).
Local Abbreviation tdraw_part000 := (tdraw_part000 MatrixMult getTransformationMatrix).
Local Abbreviation locals_along := (locals_along getTransformationMatrix).
Local Abbreviation event := (event matrix).
Local Abbreviation heap := (heap TRS).
Local Abbreviation tree := (tree TRS).

Implicit Types (h : heap) (t : tree) (tr : list event) (n r : ref).

(** *** Loops *)

Lemma forEach_Some {A} (l : list A) (f : A -> option (list event)) tr :
  forEach l f = Some tr <->
  exists kts, Forall2 (fun x kt => f x = Some kt) l kts /\ tr = concat kts.
Proof.
  revert tr. induction l as [|x l IH]; intros tr; simpl.
  - split.
    + intros [= <-]. exists []. split; [constructor | reflexivity].
    + intros (kts & HF & ->). inversion HF. reflexivity.
  - split.
    + destruct (f x) as [kt|] eqn:Hx; [|discriminate].
      destruct (forEach l f) as [rest|] eqn:Hl; [|discriminate].
      intros [= <-]. destruct (proj1 (IH rest) eq_refl) as (kts & HF & ->).
      exists (kt :: kts). split; [by constructor | reflexivity].
    + intros (kts & HF & ->). inversion HF as [|? kt ? kts' Hx HF']; subst.
      rewrite Hx. rewrite (proj2 (IH (concat kts'))); [reflexivity|].
      by exists kts'.
Qed.

Lemma forEach_related {A} (R : list event -> list event -> Prop)
    (l : list A) (f g : A -> option (list event)) :
  R [] [] ->
  (forall a a' b b', R a a' -> R b b' -> R (a ++ b) (a' ++ b')) ->
  (forall x, option_Forall2 R (f x) (g x)) ->
  option_Forall2 R (forEach l f) (forEach l g).
Proof.
  intros Hnil Happ Hfg. induction l as [|x l IH]; simpl.
  - by constructor.
  - destruct (Hfg x) as [a a' Ha|]; [|constructor].
    destruct IH as [b b' Hb|]; constructor. by apply Happ.
Qed.

(** *** Induction on unfolded trees *)

Lemma tree_rect_kids (P : tree -> Prop) :
  (forall n m L ks, Forall P ks -> P (Tree n m L ks)) -> forall t, P t.
Proof.
  intros step. fix IH 1. intros [n m L ks]. apply step.
  induction ks as [|k ks IHks]; constructor; [apply IH | exact IHks].
Qed.

(** *** The store and its unfolding *)

Lemma unfold_Some fuel h n t :
  unfold fuel h n = Some t ->
  exists fuel' obj ks,
    fuel = S fuel' /\ h !! n = Some obj /\
    Forall2 (fun c k => unfold fuel' h c = Some k) (children obj) ks /\
    t = Tree n (meshDrawer obj) (trs obj) ks.
Proof.
  destruct fuel as [|fuel]; simpl; [discriminate|].
  destruct (h !! n) as [obj|]; [|discriminate].
  destruct (mapM _ _) as [ks|] eqn:Hks; [|discriminate].
  intros [= <-]. exists fuel, obj, ks. by rewrite <- mapM_Some.
Qed.

Lemma unfold_mono fuel fuel' h n t :
  unfold fuel h n = Some t -> fuel <= fuel' -> unfold fuel' h n = Some t.
Proof.
  revert fuel' n t. induction fuel as [|fuel IH]; intros fuel' n t Hu Hle.
  - discriminate.
  - destruct (unfold_Some _ _ _ _ Hu) as (f0 & obj & ks & [= <-] & Hn & Hks & ->).
    destruct fuel' as [|fuel']; [lia|]. simpl. rewrite Hn.
    assert (mapM (unfold fuel' h) (children obj) = Some ks) as ->; [|done].
    apply mapM_Some. eapply Forall2_impl; [exact Hks|].
    intros c k Hc. apply IH; [done | lia].
Qed.

Lemma unfold_draw fuel h n t a b c d :
  unfold fuel h n = Some t -> draw fuel h n a b c d = Some (tdraw t a b c d).
Proof.
  revert n t a b c d. induction fuel as [|fuel IH]; intros n t a b c d Hu.
  - discriminate.
  - destruct (unfold_Some _ _ _ _ Hu) as (f0 & obj & ks & [= <-] & Hn & Hks & ->).
    simpl. rewrite Hn.
    match goal with |- context [forEach ?l ?f] =>
      assert (forEach l f = Some (concat (map (fun k =>
        tdraw k (MatrixMult a (getTransformationMatrix (trs obj)))
                (MatrixMult b (getTransformationMatrix (trs obj)))
                (MatrixMult c (getTransformationMatrix (trs obj)))
                (MatrixMult d (getTransformationMatrix (trs obj)))) ks))) as ->
    end; [|done].
    apply forEach_Some. eexists. split; [|reflexivity].
    clear Hn Hu. induction Hks; simpl; constructor; auto.
Qed.

Lemma unfold_draw_part000 fuel h n t a b c d :
  unfold fuel h n = Some t ->
  draw_part000 fuel h n a b c d = Some (tdraw_part000 t a b c d).
Proof.
  revert n t a b c d. induction fuel as [|fuel IH]; intros n t a b c d Hu.
  - discriminate.
  - destruct (unfold_Some _ _ _ _ Hu) as (f0 & obj & ks & [= <-] & Hn & Hks & ->).
    simpl. rewrite Hn.
    match goal with |- context [forEach ?l ?f] =>
      assert (forEach l f = Some (concat (map (fun k =>
        tdraw_part000 k (MatrixMult a (getTransformationMatrix (trs obj)))
                (MatrixMult b (getTransformationMatrix (trs obj)))
                (MatrixMult c (getTransformationMatrix (trs obj)))
                (MatrixMult d (getTransformationMatrix (trs obj)))) ks))) as ->
    end; [|done].
    apply forEach_Some. eexists. split; [|reflexivity].
    clear Hn Hu. induction Hks; simpl; constructor; auto.
Qed.

(** *** One call of [draw] *)

Lemma draw_shape :
  children_then_mesh MatrixMult getTransformationMatrix draw.
Proof.
  intros fuel h n obj a b c d tr Hn Hd T. simpl in Hd. rewrite Hn in Hd.
  destruct (forEach _ _) as [below|] eqn:Hbelow; [|discriminate].
  injection Hd as <-. apply forEach_Some in Hbelow as (kts & HF & ->).
  by exists kts.
Qed.

Lemma draw_part000_shape :
  mesh_then_children MatrixMult getTransformationMatrix draw_part000.
Proof.
  intros fuel h n obj a b c d tr Hn Hd T. simpl in Hd. rewrite Hn in Hd.
  destruct (forEach _ _) as [below|] eqn:Hbelow; [|discriminate].
  injection Hd as <-. apply forEach_Some in Hbelow as (kts & HF & ->).
  by exists kts.
Qed.

Lemma draw_head fuel h n a b c d tr :
  draw fuel h n a b c d = Some tr -> head tr = Some (EvNode n a b c d).
Proof.
  destruct fuel as [|fuel]; simpl; [discriminate|].
  destruct (h !! n); [|discriminate].
  destruct (forEach _ _); [|discriminate]. by intros [= <-].
Qed.

Lemma draw_part000_head fuel h n a b c d tr :
  draw_part000 fuel h n a b c d = Some tr -> head tr = Some (EvNode n a b c d).
Proof.
  destruct fuel as [|fuel]; simpl; [discriminate|].
  destruct (h !! n); [|discriminate].
  destruct (forEach _ _); [|discriminate]. by intros [= <-].
Qed.

Lemma head_elem_of {A} (l : list A) x : head l = Some x -> x ∈ l.
Proof. destruct l; simpl; [discriminate|]. intros [= ->]. left. Qed.

Lemma Forall2_child_trace {A B} (R : A -> B -> Prop) (l : list A) (k : list B) x :
  Forall2 R l k -> x ∈ l -> exists y, y ∈ k /\ R x y.
Proof.
  induction 1 as [|x' y' l k HR HF IH]; intros Hx.
  - by apply elem_of_nil in Hx.
  - apply elem_of_cons in Hx as [->|Hx].
    + exists y'. split; [left | done].
    + destruct (IH Hx) as (y & Hy & HRy). exists y. split; [by right | done].
Qed.

Lemma concat_incl {A} (ls : list (list A)) (l : list A) x :
  l ∈ ls -> x ∈ l -> x ∈ concat ls.
Proof. intros Hl Hx. apply list_elem_of_In, in_concat. exists l.
  by rewrite <- !list_elem_of_In. Qed.

(** *** The two traversals against each other *)

Lemma entered_mesh_draw n m (a b c d : matrix) :
  entered (mesh_draw n m a b c d) = [].
Proof. by destruct m. Qed.

Lemma draw_same_calls fuel h n a b c d :
  option_Forall2 same_calls (draw fuel h n a b c d) (draw_part000 fuel h n a b c d).
Proof.
  revert n a b c d. induction fuel as [|fuel IH]; intros n a b c d; simpl.
  - constructor.
  - destruct (h !! n) as [obj|]; [|constructor].
    match goal with
    | |- context [forEach ?l ?f] =>
        match goal with
        | |- context [forEach l ?g] =>
            lazymatch f with g => fail | _ => idtac end;
            assert (option_Forall2 same_calls (forEach l f) (forEach l g)) as HF
        end
    end.
    { apply forEach_related.
      - split; reflexivity.
      - intros x x' y y' [Hp He] [Hp' He']. split.
        + by rewrite Hp, Hp'.
        + unfold entered in *. rewrite !omap_app. congruence.
      - intros child. apply IH. }
    destruct HF as [below below' [Hp He]|]; constructor. split.
    + constructor. rewrite Hp. apply Permutation_app_comm.
    + unfold entered in *. simpl. f_equal. rewrite !omap_app.
      fold (entered (mesh_draw n (meshDrawer obj)
        (MatrixMult a (getTransformationMatrix (trs obj)))
        (MatrixMult b (getTransformationMatrix (trs obj)))
        (MatrixMult c (getTransformationMatrix (trs obj)))
        (MatrixMult d (getTransformationMatrix (trs obj))))).
      rewrite entered_mesh_draw. simpl. rewrite app_nil_r. exact He.
Qed.

(** *** Traces of unfolded trees *)

Lemma omap_concat {A B} (f : A -> option B) (ls : list (list A)) :
  omap f (concat ls) = concat (map (omap f) ls).
Proof. induction ls as [|l ls IH]; simpl; [done|]. by rewrite omap_app, IH. Qed.

Lemma fmap_concat_map {A B C} (f : B -> C) (g : A -> list B) (l : list A) :
  f <$> concat (map g l) = concat (map (fun x => f <$> g x) l).
Proof. induction l as [|x l IH]; simpl; [done|]. by rewrite fmap_app, IH. Qed.

Lemma concat_map_ext {A B} (f g : A -> list B) (l : list A) :
  Forall (fun x => f x = g x) l -> concat (map f l) = concat (map g l).
Proof. induction 1 as [|x l Hx _ IH]; simpl; [done|]. by rewrite Hx, IH. Qed.

Lemma entered_tdraw t (a b c d : matrix) : entered (tdraw t a b c d) = ids t.
Proof.
  revert a b c d. induction t as [n m L ks IH] using tree_rect_kids.
  intros a b c d. unfold ids, entered. simpl. f_equal.
  rewrite omap_app. fold (entered (mesh_draw n m
    (MatrixMult a (getTransformationMatrix L)) (MatrixMult b (getTransformationMatrix L))
    (MatrixMult c (getTransformationMatrix L)) (MatrixMult d (getTransformationMatrix L)))).
  rewrite entered_mesh_draw, app_nil_r, omap_concat, map_map, fmap_concat_map.
  apply concat_map_ext. eapply Forall_impl; [exact IH|].
  intros k Hk. apply Hk.
Qed.

Lemma mesh_calls_mesh_draw n m (a b c d : matrix) :
  mesh_calls (mesh_draw n m a b c d) = from_option (fun x => [(n, x)]) [] m.
Proof. by destruct m. Qed.

Lemma mesh_calls_tdraw_part000 t (a b c d : matrix) :
  mesh_calls (tdraw_part000 t a b c d) = mesh_nodes t.
Proof.
  revert a b c d. induction t as [n m L ks IH] using tree_rect_kids.
  intros a b c d. unfold mesh_nodes, mesh_calls. simpl.
  rewrite omap_app. fold (mesh_calls (mesh_draw n m
    (MatrixMult a (getTransformationMatrix L)) (MatrixMult b (getTransformationMatrix L))
    (MatrixMult c (getTransformationMatrix L)) (MatrixMult d (getTransformationMatrix L)))).
  rewrite mesh_calls_mesh_draw, !omap_concat, !map_map.
  assert (concat (map (fun k => omap mesh_call_of (tdraw_part000 k
            (MatrixMult a (getTransformationMatrix L))
            (MatrixMult b (getTransformationMatrix L))
            (MatrixMult c (getTransformationMatrix L))
            (MatrixMult d (getTransformationMatrix L)))) ks)
          = concat (map (fun k => omap (fun nm => pair nm.1 <$> nm.2) (nodes k)) ks))
    as ->.
  { apply concat_map_ext. eapply Forall_impl; [exact IH|]. intros k Hk. apply Hk. }
  by destruct m.
Qed.

Lemma mesh_nodes_sublist t : (mesh_nodes t).*1 `sublist_of` ids t.
Proof.
  unfold mesh_nodes, ids. induction (nodes t) as [|[n [m|]] l IH]; simpl.
  - constructor.
  - by constructor.
  - by constructor.
Qed.

Lemma elem_of_mesh_nodes t n m : (n, m) ∈ mesh_nodes t <-> (n, Some m) ∈ nodes t.
Proof.
  unfold mesh_nodes. rewrite list_elem_of_omap. split.
  - intros ([n' [m'|]] & Hin & Heq); simpl in Heq; [|discriminate].
    by injection Heq as -> ->.
  - intros Hin. by exists (n, Some m).
Qed.

Lemma unfold_nodes fuel h r t n m :
  unfold fuel h r = Some t -> (n, m) ∈ nodes t ->
  exists obj, h !! n = Some obj /\ meshDrawer obj = m.
Proof.
  revert r t. induction fuel as [|fuel IH]; intros r t Hu Hin; [discriminate|].
  destruct (unfold_Some _ _ _ _ Hu) as (f0 & obj & ks & [= <-] & Hr & Hks & ->).
  simpl in Hin. apply elem_of_cons in Hin as [[= -> ->]|Hin].
  - by exists obj.
  - apply list_elem_of_In, in_concat in Hin as (l & Hl & Hin).
    apply in_map_iff in Hl as (k & <- & Hk).
    apply list_elem_of_In in Hk, Hin.
    clear Hu Hr. induction Hks as [|c k' cs ks Hc Hcs IHks].
    + by apply elem_of_nil in Hk.
    + apply elem_of_cons in Hk as [->|Hk]; [by eapply IH | by apply IHks].
Qed.

Lemma at_path_nodes t p t' :
  at_path t p = Some t' -> (root_id t', root_mesh t') ∈ nodes t.
Proof.
  revert t. induction p as [|i p IH]; intros [n m L ks]; simpl.
  - intros [= <-]. left.
  - destruct (ks !! i) as [k|] eqn:Hk; [|discriminate]. intros Hp.
    right. apply (concat_incl _ (nodes k)); [|by apply IH].
    apply list_elem_of_In, in_map, list_elem_of_In. by eapply list_elem_of_lookup_2.
Qed.

Lemma locals_along_length t p t' :
  at_path t p = Some t' -> length (locals_along t p) = S (length p).
Proof.
  revert t. induction p as [|i p IH]; intros [n m L ks]; simpl; [done|].
  destruct (ks !! i) as [k|]; [|discriminate]. intros Hp. by rewrite (IH k).
Qed.

(** The call on the mesh of the node at position [p] carries the incoming
    matrices multiplied by the local transforms down to [p]. *)
Lemma tdraw_at_path t p n m L ks (a b c d : matrix) :
  at_path t p = Some (Tree n (Some m) L ks) ->
  EvMesh n m (fold_left MatrixMult (locals_along t p) a)
             (fold_left MatrixMult (locals_along t p) b)
             (fold_left MatrixMult (locals_along t p) c)
             (fold_left MatrixMult (locals_along t p) d)
    ∈ tdraw t a b c d.
Proof.
  revert t a b c d. induction p as [|i p IH]; intros [n0 m0 L0 ks0] a b c d; simpl.
  - intros [= -> -> -> ->]. right. apply elem_of_app. right. left.
  - destruct (ks0 !! i) as [k|] eqn:Hk; [|discriminate]. intros Hp.
    right. apply elem_of_app. left.
    eapply concat_incl; [|by apply IH].
    apply list_elem_of_In, in_map_iff. exists k. split; [done|].
    apply list_elem_of_In. by eapply list_elem_of_lookup_2.
Qed.

Lemma mesh_call_unique (l : list event) e e' n m m' :
  NoDup (mesh_calls l).*1 -> e ∈ l -> e' ∈ l ->
  mesh_call_of e = Some (n, m) -> mesh_call_of e' = Some (n, m') -> e = e'.
Proof.
  unfold mesh_calls. induction l as [|x l IH]; simpl; intros Hnd He He' Hm Hm'.
  - by apply elem_of_nil in He.
  - assert (forall y k, y ∈ l -> mesh_call_of y = Some (n, k) ->
                   n ∈ (omap mesh_call_of l).*1) as Hown.
    { intros y k Hy Hk. apply list_elem_of_fmap. exists (n, k). split; [done|].
      apply list_elem_of_omap. by exists y. }
    apply elem_of_cons in He as [->|He]; apply elem_of_cons in He' as [->|He'].
    + done.
    + rewrite Hm in Hnd. simpl in Hnd. apply NoDup_cons in Hnd as [Hn _].
      destruct Hn. by eapply Hown.
    + rewrite Hm' in Hnd. simpl in Hnd. apply NoDup_cons in Hnd as [Hn _].
      destruct Hn. by eapply Hown.
    + apply IH; try done. destruct (mesh_call_of x); simpl in Hnd; [|done].
      by apply NoDup_cons in Hnd as [_ ?].
Qed.

Lemma unfold_traces fuel h r t (a b c d : matrix) :
  unfold fuel h r = Some t ->
  draw fuel h r a b c d = Some (tdraw t a b c d) /\
  draw_part000 fuel h r a b c d = Some (tdraw_part000 t a b c d) /\
  same_calls (tdraw t a b c d) (tdraw_part000 t a b c d).
Proof.
  intros Hu. pose proof (draw_same_calls fuel h r a b c d) as Hs.
  rewrite (unfold_draw _ _ _ _ a b c d Hu) in Hs |- *.
  rewrite (unfold_draw_part000 _ _ _ _ a b c d Hu) in Hs |- *.
  by inversion Hs.
Qed.

Lemma tree_mesh_calls t (a b c d : matrix) :
  NoDup (ids t) ->
  mesh_calls (tdraw_part000 t a b c d) = mesh_nodes t /\
  NoDup (mesh_nodes t).*1.
Proof.
  intros Hnd. split; [apply mesh_calls_tdraw_part000|].
  eapply sublist_NoDup; [exact Hnd | apply mesh_nodes_sublist].
Qed.

(** ** Transform propagation *)



(** C10. On every store, from every node and with every four matrices,
    the two [draw] functions fail together or return traces that are
    permutations of each other: the same calls of [MeshDrawer.draw], by the
    same nodes on the same meshes with the same four matrices, and the same
    nodes entered in the same order. Below a node whose object graph is a
    finite tree both return. *)
Theorem draw_variants_same_calls fuel h n (a b c d : matrix) :
  option_Forall2 same_calls (draw fuel h n a b c d) (draw_part000 fuel h n a b c d) /\
  (forall t, unfold fuel h n = Some t ->
     exists tr tr',
       draw fuel h n a b c d = Some tr /\
       draw_part000 fuel h n a b c d = Some tr' /\
       tr ≡ₚ tr' /\
       (forall e, e ∈ tr <-> e ∈ tr') /\
       entered tr = entered tr' /\
       mesh_calls tr ≡ₚ mesh_calls tr').
Proof.
  split; [apply draw_same_calls|].
  intros t Hu. destruct (unfold_traces _ _ _ _ a b c d Hu) as (Hd & Hd' & Hp & He).
  eexists _, _. split; [exact Hd|]. split; [exact Hd'|]. split; [exact Hp|].
  split; [|split; [exact He|]].
  - intros e. by rewrite Hp.
  - unfold mesh_calls. by rewrite Hp.
Qed.

Lemma product_fold identity (ls : list matrix) :
  (forall A, MatrixMult identity A = A) -> ls <> [] ->
  fold_left MatrixMult ls identity = product MatrixMult identity ls.
Proof. intros Hid Hne. destruct ls as [|L0 ls]; [done|]. simpl. by rewrite Hid. Qed.

Lemma locals_along_nonempty t p : locals_along t p <> [].
Proof. destruct t, p; discriminate. Qed.

(** C2. Let the object graph below the root [r] be a finite tree of
    distinct nodes, and let the node [n] at position [p] (depth
    [length p]) have the mesh [m]. A [draw] on [r] with the identity on the
    four channels returns, and the one call of [MeshDrawer.draw] that [n]
    makes carries on every channel the product of the [length p + 1] local
    transforms from the root down to [n], the root's leftmost. The identity
    is assumed neutral on the left of [MatrixMult]. *)
Theorem draw_root_product identity fuel h r t p n m L ks :
  (forall A, MatrixMult identity A = A) ->
  unfold fuel h r = Some t ->
  NoDup (ids t) ->
  at_path t p = Some (Tree n (Some m) L ks) ->
  let P := product MatrixMult identity (locals_along t p) in
  length (locals_along t p) = S (length p) /\
  exists tr tr',
    draw fuel h r identity identity identity identity = Some tr /\
    draw_part000 fuel h r identity identity identity identity = Some tr' /\
    EvMesh n m P P P P ∈ tr /\
    EvMesh n m P P P P ∈ tr' /\
    (forall m' a b c d,
       EvMesh n m' a b c d ∈ tr \/ EvMesh n m' a b c d ∈ tr' ->
       m' = m /\ a = P /\ b = P /\ c = P /\ d = P).
Proof.
  intros Hid Hu Hnd Hp P.
  split; [by eapply locals_along_length|].
  destruct (unfold_traces _ _ _ _ identity identity identity identity Hu)
    as (Hd & Hd' & Hperm & _).
  destruct (tree_mesh_calls t identity identity identity identity Hnd) as [Hcalls Hnd'].
  pose proof (tdraw_at_path _ _ _ _ _ _ identity identity identity identity Hp) as Hin.
  rewrite (product_fold identity _ Hid (locals_along_nonempty t p)) in Hin.
  fold P in Hin.
  assert (NoDup (mesh_calls (tdraw t identity identity identity identity)).*1) as Hnd''.
  { unfold mesh_calls. rewrite Hperm. fold (mesh_calls
      (tdraw_part000 t identity identity identity identity)). by rewrite Hcalls. }
  eexists _, _. split; [exact Hd|]. split; [exact Hd'|]. split; [exact Hin|].
  split; [by rewrite <- Hperm|].
  intros m' a b c d Hor.
  assert (EvMesh n m' a b c d ∈ tdraw t identity identity identity identity) as Hin'.
  { destruct Hor as [?|?]; [done | by rewrite Hperm]. }
  pose proof (mesh_call_unique _ _ _ n m' m Hnd'' Hin' Hin eq_refl eq_refl) as Heq.
  by injection Heq as -> -> -> -> ->.
Qed.

(** ** Traversal *)

(** C4. Let the object graph below the root [r] be a finite tree of
    distinct nodes. Then [draw] on [r] returns, with any deeper stack as
    well; it enters every node of the tree, and no node twice; it calls
    [MeshDrawer.draw] for exactly the nodes of the tree that have a mesh, on
    that mesh, and for no node twice. On a node without children one call
    is the whole traversal. *)
Theorem draw_each_node_once fuel h r t (a b c d : matrix) :
  unfold fuel h r = Some t ->
  NoDup (ids t) ->
  (forall fuel', fuel <= fuel' ->
     exists tr,
       draw fuel' h r a b c d = Some tr /\
       NoDup (entered tr) /\
       (forall n, n ∈ entered tr <-> n ∈ ids t) /\
       NoDup (mesh_calls tr).*1 /\
       (forall n m, (n, m) ∈ mesh_calls tr <->
                    n ∈ ids t /\ meshDrawer <$> h !! n = Some (Some m))) /\
  (forall n obj (a b c d : matrix),
     h !! n = Some obj -> children obj = [] ->
     draw 1 h n a b c d =
       Some (EvNode n a b c d ::
             mesh_draw n (meshDrawer obj)
               (MatrixMult a (getTransformationMatrix (trs obj)))
               (MatrixMult b (getTransformationMatrix (trs obj)))
               (MatrixMult c (getTransformationMatrix (trs obj)))
               (MatrixMult d (getTransformationMatrix (trs obj))))).
Proof.
  intros Hu Hnd. split.
  - intros fuel' Hle. pose proof (unfold_mono _ _ _ _ _ Hu Hle) as Hu'.
    destruct (unfold_traces _ _ _ _ a b c d Hu') as (Hd & _ & Hperm & _).
    destruct (tree_mesh_calls t a b c d Hnd) as [Hcalls Hnd'].
    exists (tdraw t a b c d). split; [exact Hd|].
    rewrite entered_tdraw. split; [exact Hnd|]. split; [done|].
    assert (mesh_calls (tdraw t a b c d) ≡ₚ mesh_nodes t) as Hm.
    { unfold mesh_calls. rewrite Hperm.
      fold (mesh_calls (tdraw_part000 t a b c d)). by rewrite Hcalls. }
    split; [by rewrite Hm|].
    intros n m. rewrite Hm, elem_of_mesh_nodes. split.
    + intros Hin. split.
      * apply list_elem_of_fmap. by exists (n, Some m).
      * destruct (unfold_nodes _ _ _ _ _ _ Hu Hin) as (obj & -> & <-). done.
    + intros [Hin Hobj]. apply list_elem_of_fmap in Hin as ([n' m'] & -> & Hin).
      simpl in Hobj. destruct (unfold_nodes _ _ _ _ _ _ Hu Hin) as (obj & Hn & <-).
      rewrite Hn in Hobj. simpl in Hobj. injection Hobj as Hobj.
      by rewrite Hobj in Hin.
  - intros n obj a' b' c' d' Hn Hkids. simpl. rewrite Hn, Hkids. done.
Qed.

Lemma forEach_is_None {A} (l : list A) (f : A -> option (list event)) :
  forEach l f = None <-> exists x, x ∈ l /\ f x = None.
Proof.
  induction l as [|x l IH]; simpl.
  - split; [discriminate|]. intros (x & Hx & _). by apply elem_of_nil in Hx.
  - destruct (f x) as [kt|] eqn:Hx.
    + destruct (forEach l f) as [rest|].
      * split; [discriminate|]. intros (y & Hy & Hnone).
        apply elem_of_cons in Hy as [->|Hy]; [congruence|].
        discriminate (proj2 IH (ex_intro _ y (conj Hy Hnone))).
      * split; [|done]. intros _. destruct (proj1 IH eq_refl) as (y & Hy & Hnone).
        exists y. split; [by right | done].
    + split; [|done]. intros _. exists x. split; [left | done].
Qed.

Lemma tree_mesh_calls_iff fuel h r t (a b c d : matrix) n m :
  unfold fuel h r = Some t ->
  ((n, m) ∈ mesh_calls (tdraw t a b c d) <->
     n ∈ ids t /\ meshDrawer <$> h !! n = Some (Some m)) /\
  ((n, m) ∈ mesh_calls (tdraw_part000 t a b c d) <->
     n ∈ ids t /\ meshDrawer <$> h !! n = Some (Some m)).
Proof.
  intros Hu.
  destruct (unfold_traces _ _ _ _ a b c d Hu) as (_ & _ & Hperm & _).
  assert ((n, Some m) ∈ nodes t <->
          n ∈ ids t /\ meshDrawer <$> h !! n = Some (Some m)) as Hnodes.
  { split.
    - intros Hin. split.
      + apply list_elem_of_fmap. by exists (n, Some m).
      + destruct (unfold_nodes _ _ _ _ _ _ Hu Hin) as (obj & -> & <-). done.
    - intros [Hin Hobj]. apply list_elem_of_fmap in Hin as ([n' m'] & -> & Hin).
      simpl in Hobj. destruct (unfold_nodes _ _ _ _ _ _ Hu Hin) as (obj & Hn & <-).
      rewrite Hn in Hobj. simpl in Hobj. injection Hobj as Hobj.
      by rewrite Hobj in Hin. }
  rewrite <- Hnodes, <- elem_of_mesh_nodes.
  rewrite <- (mesh_calls_tdraw_part000 t a b c d).
  split; [|done]. unfold mesh_calls. by rewrite Hperm.
Qed.

(** C9. [draw] raises nothing on a tree. Below a node whose object graph
    is finite and acyclic both [draw] functions return, whatever the
    matrices; they enter every node of the tree, those below a node without
    a mesh too, and call [MeshDrawer.draw] for the nodes that have a mesh
    and for no other. A node without a mesh makes no call of
    [MeshDrawer.draw]: its trace is its entry followed by the traces of its
    children, each visited with the four composed matrices, and its [draw]
    fails only where the [draw] of one of its children fails. A node without
    children returns after its entry and the call on its mesh. *)
Theorem draw_no_error fuel h r t :
  unfold fuel h r = Some t ->
  (forall fuel' (a b c d : matrix), fuel <= fuel' ->
     exists tr tr',
       draw fuel' h r a b c d = Some tr /\
       draw_part000 fuel' h r a b c d = Some tr' /\
       entered tr = ids t /\ entered tr' = ids t /\
       (forall n m, (n, m) ∈ mesh_calls tr <->
                    n ∈ ids t /\ meshDrawer <$> h !! n = Some (Some m)) /\
       (forall n m, (n, m) ∈ mesh_calls tr' <->
                    n ∈ ids t /\ meshDrawer <$> h !! n = Some (Some m))) /\
  (forall f n obj (a b c d : matrix),
     h !! n = Some obj -> meshDrawer obj = None ->
     let L := getTransformationMatrix (trs obj) in
     let a' := MatrixMult a L in
     let b' := MatrixMult b L in
     let c' := MatrixMult c L in
     let d' := MatrixMult d L in
     (forall tr,
        draw (S f) h n a b c d = Some tr ->
        exists kts,
          Forall2 (fun child kt =>
                     draw f h child a' b' c' d' = Some kt /\
                     head kt = Some (EvNode child a' b' c' d'))
                  (children obj) kts /\
          tr = EvNode n a b c d :: concat kts) /\
     (draw (S f) h n a b c d = None <->
        exists child, child ∈ children obj /\ draw f h child a' b' c' d' = None) /\
     (forall tr',
        draw_part000 (S f) h n a b c d = Some tr' ->
        exists kts',
          Forall2 (fun child kt' =>
                     draw_part000 f h child a' b' c' d' = Some kt' /\
                     head kt' = Some (EvNode child a' b' c' d'))
                  (children obj) kts' /\
          tr' = EvNode n a b c d :: concat kts') /\
     (draw_part000 (S f) h n a b c d = None <->
        exists child,
          child ∈ children obj /\ draw_part000 f h child a' b' c' d' = None)) /\
  (forall f n obj (a b c d : matrix),
     h !! n = Some obj -> children obj = [] ->
     let L := getTransformationMatrix (trs obj) in
     let own :=
       match meshDrawer obj with
       | Some m => [EvMesh n m (MatrixMult a L) (MatrixMult b L)
                      (MatrixMult c L) (MatrixMult d L)]
       | None => []
       end in
     draw (S f) h n a b c d = Some (EvNode n a b c d :: own) /\
     draw_part000 (S f) h n a b c d = Some (EvNode n a b c d :: own)).
Proof.
  intros Hu. split; [|split].
  - intros fuel' a b c d Hle. pose proof (unfold_mono _ _ _ _ _ Hu Hle) as Hu'.
    destruct (unfold_traces _ _ _ _ a b c d Hu') as (Hd & Hd' & _ & Hent).
    exists (tdraw t a b c d), (tdraw_part000 t a b c d).
    split; [exact Hd|]. split; [exact Hd'|].
    split; [apply entered_tdraw|]. split; [rewrite <- Hent; apply entered_tdraw|].
    split; intros n m; by apply (tree_mesh_calls_iff fuel h r t a b c d n m).
  - intros f n obj a b c d Hn Hm L a' b' c' d'. split; [|split; [|split]].
    + intros tr Hd.
      destruct (draw_shape _ _ _ _ _ _ _ _ _ Hn Hd) as (kts & HF & ->).
      exists kts. rewrite Hm. simpl. rewrite app_nil_r. split; [|done].
      eapply Forall2_impl; [exact HF|]. intros child kt Hkt.
      split; [exact Hkt | exact (draw_head _ _ _ _ _ _ _ _ Hkt)].
    + rewrite <- forEach_is_None. simpl. rewrite Hn. fold L a' b' c' d'.
      by destruct (forEach _ _).
    + intros tr' Hd'.
      destruct (draw_part000_shape _ _ _ _ _ _ _ _ _ Hn Hd') as (kts' & HF' & ->).
      exists kts'. rewrite Hm. simpl. split; [|done].
      eapply Forall2_impl; [exact HF'|]. intros child kt Hkt.
      split; [exact Hkt | exact (draw_part000_head _ _ _ _ _ _ _ _ Hkt)].
    + rewrite <- forEach_is_None. simpl. rewrite Hn. fold L a' b' c' d'.
      by destruct (forEach _ _).
  - intros f n obj a b c d Hn Hk L own. simpl. rewrite Hn, Hk. simpl.
    unfold own, L. destruct (meshDrawer obj); simpl; by rewrite ?app_nil_r.
Qed.

End SceneGraphTheory.

(** * Properties of the constructor *)

Section ConstructorTheory.

Context {TRS : Type}.

Local Abbreviation heap := (heap TRS).
Implicit Types (h : heap) (n p q : ref) (t : TRS) (m : option meshref).

Lemma constructor_part000_eq h m t (parent_ : option ref) :
  constructor_part000 h m t parent_ = constructor h m t parent_.
Proof. unfold constructor_part000, constructor. by destruct m, parent_. Qed.

Lemma constructor_length h m t (parent_ : option ref) :
  length (constructor h m t parent_).1 = S (length h).
Proof.
  unfold constructor, addChild. destruct parent_; cbn [fst];
    rewrite ?length_alter, length_app; simpl; lia.
Qed.

Lemma constructor_ref h m t (parent_ : option ref) :
  (constructor h m t parent_).2 = length h.
Proof. unfold constructor. by destruct parent_. Qed.

(** What a reference denotes after a constructor call: the new object at
    the new reference; elsewhere the old object, with the new reference
    pushed on its [children] when it is the parent. *)
Lemma constructor_lookup h m t (parent_ : option ref) n :
  (forall q, parent_ = Some q -> q < length h) ->
  (constructor h m t parent_).1 !! n =
    if decide (n = length h) then Some (mkSceneNode m t parent_ [])
    else (fun obj =>
            mkSceneNode (meshDrawer obj) (trs obj) (parent obj)
              (children obj ++ if decide (parent_ = Some n) then [length h] else []))
         <$> h !! n.
Proof.
  intros Hp. unfold constructor, addChild.
  destruct parent_ as [q|]; simpl.
  - pose proof (Hp q eq_refl) as Hq. rewrite list_lookup_alter.
    destruct (decide (q = n)) as [->|Hne].
    + rewrite decide_False by lia. rewrite decide_True by done.
      by rewrite lookup_app_l.
    + destruct (decide (n = length h)) as [->|Hn].
      * by rewrite list_lookup_middle.
      * rewrite decide_False by congruence.
        destruct (decide (n < length h)).
        -- rewrite lookup_app_l by done.
           destruct (h !! n) as [[]|]; simpl; by rewrite ?app_nil_r.
        -- rewrite !lookup_ge_None_2; [done | lia | rewrite length_app; simpl; lia].
  - destruct (decide (n = length h)) as [->|Hn].
    + by rewrite list_lookup_middle.
    + destruct (decide (n < length h)).
      * rewrite lookup_app_l by done.
        destruct (h !! n) as [[]|]; simpl; by rewrite ?app_nil_r.
      * rewrite !lookup_ge_None_2; [done | lia | rewrite length_app; simpl; lia].
Qed.

Lemma constructor_invariant h m t (parent_ : option ref) :
  (forall q, parent_ = Some q -> q < length h) ->
  children_bounded h /\ parent_lists_child_once h ->
  children_bounded (constructor h m t parent_).1 /\
  parent_lists_child_once (constructor h m t parent_).1.
Proof.
  intros Hp [Hb Hinv]. split.
  - intros n obj c Hn Hc. rewrite constructor_length.
    rewrite constructor_lookup in Hn by done.
    destruct (decide (n = length h)) as [->|Hne].
    + injection Hn as <-. by apply elem_of_nil in Hc.
    + destruct (h !! n) as [old|] eqn:Hold; [|discriminate].
      injection Hn as <-. simpl in Hc. apply elem_of_app in Hc as [Hc|Hc].
      * pose proof (Hb _ _ _ Hold Hc). lia.
      * destruct (decide _); [|by apply elem_of_nil in Hc].
        apply list_elem_of_singleton in Hc as ->. lia.
  - intros n obj pp Hn Hpar.
    rewrite constructor_lookup in Hn by done.
    rewrite constructor_lookup by done.
    destruct (decide (n = length h)) as [->|Hne].
    + injection Hn as <-. simpl in Hpar. subst parent_.
      pose proof (Hp pp eq_refl) as Hlt.
      rewrite decide_False by lia.
      destruct (lookup_lt_is_Some_2 h pp Hlt) as [pobj Hpobj].
      rewrite Hpobj. simpl. eexists. split; [reflexivity|]. simpl.
      rewrite decide_True by done. rewrite count_occ_app.
      rewrite count_occ_cons_eq by done. simpl.
      assert (count_occ Nat.eq_dec (children pobj) (length h) = 0) as ->; [|done].
      apply count_occ_not_In. intros Hin%list_elem_of_In.
      pose proof (Hb _ _ _ Hpobj Hin). lia.
    + destruct (h !! n) as [old|] eqn:Hold; [|discriminate].
      injection Hn as <-. simpl in Hpar.
      destruct (Hinv _ _ _ Hold Hpar) as (pobj & Hpobj & Hcount).
      pose proof (lookup_lt_Some _ _ _ Hpobj) as Hlt.
      rewrite decide_False by lia. rewrite Hpobj. simpl.
      eexists. split; [reflexivity|]. simpl. rewrite count_occ_app, Hcount.
      destruct (decide _); [|simpl; lia].
      rewrite count_occ_cons_neq by lia. simpl. lia.
Qed.

Lemma built_invariant h :
  built h -> children_bounded h /\ parent_lists_child_once h.
Proof.
  induction 1 as [|h m t Hh IH|h m t p Hh IH Hp|h m t Hh IH|h m t p Hh IH Hp];
    rewrite ?constructor_part000_eq.
  - split; intros n obj ? Hn; by rewrite lookup_nil in Hn.
  - apply constructor_invariant; [intros ? [=] | done].
  - apply constructor_invariant; [by intros ? [= <-] | done].
  - apply constructor_invariant; [intros ? [=] | done].
  - apply constructor_invariant; [by intros ? [= <-] | done].
Qed.

(** *** Stores made by the constructor are forests *)

Lemma constructor_links h m t (parent_ : option ref) :
  (forall q, parent_ = Some q -> q < length h) ->
  children_bounded h ->
  children_increasing h /\ children_have_parent h ->
  children_increasing (constructor h m t parent_).1 /\
  children_have_parent (constructor h m t parent_).1.
Proof.
  intros Hp Hb [Hinc Hpar]. split.
  - intros n obj c Hn Hc. rewrite constructor_lookup in Hn by done.
    destruct (decide (n = length h)) as [->|Hne].
    + injection Hn as <-. by apply elem_of_nil in Hc.
    + destruct (h !! n) as [old|] eqn:Hold; [|discriminate].
      injection Hn as <-. simpl in Hc. apply elem_of_app in Hc as [Hc|Hc].
      * by eapply Hinc.
      * destruct (decide _); [|by apply elem_of_nil in Hc].
        apply list_elem_of_singleton in Hc as ->. by eapply lookup_lt_Some.
  - intros n obj c Hn Hc. rewrite constructor_lookup in Hn by done.
    rewrite constructor_lookup by done.
    destruct (decide (n = length h)) as [->|Hne].
    + injection Hn as <-. by apply elem_of_nil in Hc.
    + destruct (h !! n) as [old|] eqn:Hold; [|discriminate].
      injection Hn as <-. simpl in Hc. apply elem_of_app in Hc as [Hc|Hc].
      * destruct (Hpar _ _ _ Hold Hc) as (cobj & Hcobj & Hcpar).
        pose proof (lookup_lt_Some _ _ _ Hcobj).
        rewrite decide_False by lia. rewrite Hcobj. simpl.
        eexists. split; [reflexivity | exact Hcpar].
      * destruct (decide _) as [->|]; [|by apply elem_of_nil in Hc].
        apply list_elem_of_singleton in Hc as ->.
        rewrite decide_True by done. eexists. split; reflexivity.
Qed.

Lemma built_links h :
  built h ->
  children_bounded h /\ parent_lists_child_once h /\
  children_increasing h /\ children_have_parent h.
Proof.
  assert (forall h m t (parent_ : option ref),
            (forall q, parent_ = Some q -> q < length h) ->
            children_bounded h /\ parent_lists_child_once h /\
              children_increasing h /\ children_have_parent h ->
            children_bounded (constructor h m t parent_).1 /\
            parent_lists_child_once (constructor h m t parent_).1 /\
            children_increasing (constructor h m t parent_).1 /\
            children_have_parent (constructor h m t parent_).1) as Hstep.
  { intros h0 m t parent_ Hp (Hb & Hinv & Hl).
    destruct (constructor_invariant h0 m t parent_ Hp (conj Hb Hinv)) as [? ?].
    destruct (constructor_links h0 m t parent_ Hp Hb Hl) as [? ?]. done. }
  induction 1 as [|h m t Hh IH|h m t p Hh IH Hp|h m t Hh IH|h m t p Hh IH Hp];
    rewrite ?constructor_part000_eq.
  - repeat split; intros n obj ? Hn; by rewrite lookup_nil in Hn.
  - apply Hstep; [intros ? [=] | done].
  - apply Hstep; [by intros ? [= <-] | done].
  - apply Hstep; [intros ? [=] | done].
  - apply Hstep; [by intros ? [= <-] | done].
Qed.

Lemma unfold_total h :
  children_bounded h -> children_increasing h ->
  forall fuel n, n < length h -> length h - n <= fuel ->
    exists tr, unfold fuel h n = Some tr.
Proof.
  intros Hb Hinc. induction fuel as [|fuel IH]; intros n Hn Hfuel; [lia|].
  destruct (lookup_lt_is_Some_2 h n Hn) as [obj Hobj]. simpl. rewrite Hobj.
  assert (exists ks, mapM (unfold fuel h) (children obj) = Some ks) as [ks ->].
  { assert (Forall (fun c => n < c < length h) (children obj)) as Hcs.
    { apply Forall_forall. intros c Hc. split; [by eapply Hinc | by eapply Hb]. }
    induction Hcs as [|c cs [Hc1 Hc2] _ IHcs].
    - by exists [].
    - destruct (IH c) as [k Hk]; [lia | lia |]. destruct IHcs as [ks Hks].
      exists (k :: ks). apply mapM_Some. constructor; [done|]. by apply mapM_Some. }
  by eexists.
Qed.

Lemma ancestor_plus h a b x :
  ancestor h (a + b) x = ancestor h a x ≫= ancestor h b.
Proof.
  induction b as [|b IH].
  - rewrite Nat.add_0_r. simpl. by destruct (ancestor h a x).
  - rewrite Nat.add_succ_r. simpl. rewrite IH.
    destruct (ancestor h a x); simpl; done.
Qed.

Lemma ancestor_le h j x y :
  parent_lists_child_once h -> children_increasing h ->
  ancestor h j x = Some y -> y <= x /\ (0 < j -> y < x).
Proof.
  intros Hinv Hinc. revert y. induction j as [|j IH]; intros y; simpl.
  - intros [= <-]. lia.
  - destruct (ancestor h j x) as [z|]; [|discriminate].
    destruct (h !! z) as [obj|] eqn:Hz; [|discriminate]. intros Hpar.
    destruct (Hinv _ _ _ Hz Hpar) as (pobj & Hpobj & Hcount).
    assert (z ∈ children pobj) as Hin.
    { apply list_elem_of_In, (count_occ_In Nat.eq_dec). lia. }
    pose proof (Hinc _ _ _ Hpobj Hin). destruct (IH z eq_refl). lia.
Qed.

Lemma unfold_ancestor fuel h c k x :
  children_have_parent h ->
  unfold fuel h c = Some k -> x ∈ ids k -> exists j, ancestor h j x = Some c.
Proof.
  intros Hpar. revert c k. induction fuel as [|fuel IH]; intros c k Hu Hx; [discriminate|].
  destruct (unfold_Some _ _ _ _ Hu) as (f0 & obj & ks & [= <-] & Hc & Hks & ->).
  unfold ids in Hx. simpl in Hx. apply elem_of_cons in Hx as [->|Hx]; [by exists 0|].
  apply list_elem_of_fmap in Hx as ([x' mx] & -> & Hx). simpl.
  apply list_elem_of_In, in_concat in Hx as (l & Hl & Hx).
  apply in_map_iff in Hl as (k & <- & Hk). apply list_elem_of_In in Hk, Hx.
  destruct (Forall2_child_trace (fun k c => unfold fuel h c = Some k) ks (children obj) k)
    as (ci & Hci & Hui); [by apply Forall2_flip | done |].
  destruct (IH ci k Hui) as [j Hj].
  { apply list_elem_of_fmap. by exists (x', mx). }
  destruct (Hpar _ _ _ Hc Hci) as (cobj & Hcobj & Hcpar).
  exists (S j). simpl in Hj |- *. by rewrite Hj, Hcobj.
Qed.

Lemma NoDup_concat_disjoint {A} (ls : list (list A)) :
  (forall l, l ∈ ls -> NoDup l) ->
  (forall i j l l' x, i <> j -> ls !! i = Some l -> ls !! j = Some l' ->
                      x ∈ l -> x ∈ l' -> False) ->
  NoDup (concat ls).
Proof.
  induction ls as [|l ls IH]; intros Hnd Hdis; simpl; [constructor|].
  apply NoDup_app. split; [apply Hnd; left|]. split.
  - intros x Hx Hin. apply list_elem_of_In, in_concat in Hin as (l' & Hl' & Hin).
    apply list_elem_of_In, list_elem_of_lookup in Hl' as [j Hj].
    apply (Hdis 0 (S j) l l' x); [lia | done | done | done | by apply list_elem_of_In].
  - apply IH.
    + intros l' Hl'. apply Hnd. by right.
    + intros i j l1 l2 x Hne Hi Hj. apply (Hdis (S i) (S j)); [lia | done | done].
Qed.

Lemma lookup_map {A B} (f : A -> B) (l : list A) i :
  map f l !! i = f <$> l !! i.
Proof. revert i. induction l as [|x l IH]; intros [|i]; simpl; auto. Qed.

Lemma count_occ_two_positions (l : list nat) i j c :
  i <> j -> l !! i = Some c -> l !! j = Some c -> 2 <= count_occ Nat.eq_dec l c.
Proof.
  revert i j. induction l as [|x l IH]; intros i j Hne Hi Hj; [done|].
  assert (forall k, l !! k = Some c -> 1 <= count_occ Nat.eq_dec l c) as Hone.
  { intros k Hk. apply (count_occ_In Nat.eq_dec), list_elem_of_In.
    by eapply list_elem_of_lookup_2. }
  destruct i as [|i], j as [|j]; simpl in *; try done.
  - injection Hi as ->. pose proof (Hone _ Hj).
    destruct (Nat.eq_dec c c); [lia | done].
  - injection Hj as ->. pose proof (Hone _ Hi).
    destruct (Nat.eq_dec c c); [lia | done].
  - assert (i <> j) by lia. pose proof (IH i j ltac:(done) Hi Hj).
    destruct (Nat.eq_dec x c); lia.
Qed.

(** In a store made by constructor calls alone, the object graph below
    every node is a finite tree of distinct nodes. *)
Lemma built_forest h n :
  built h -> n < length h ->
  exists T : tree TRS, unfold (length h - n) h n = Some T /\ NoDup (ids T).
Proof.
  intros Hbuilt Hn.
  destruct (built_links h Hbuilt) as (Hb & Hinv & Hinc & Hpar).
  destruct (unfold_total h Hb Hinc (length h - n) n Hn (le_n _)) as [T HT].
  exists T. split; [exact HT|].
  revert HT. generalize (length h - n) as fuel. clear Hn.
  intros fuel. revert n T.
  induction fuel as [|fuel IH]; intros n T Hu; [discriminate|].
  destruct (unfold_Some _ _ _ _ Hu) as (f0 & obj & ks & [= <-] & Hobj & Hks & ->).
  unfold ids. simpl. rewrite fmap_concat_map. apply NoDup_cons. split.
  - intros Hin. apply list_elem_of_In, in_concat in Hin as (l & Hl & Hin).
    apply in_map_iff in Hl as (k & <- & Hk). apply list_elem_of_In in Hk, Hin.
    destruct (Forall2_child_trace (fun k c => unfold fuel h c = Some k) ks
                (children obj) k) as (ci & Hci & Hui); [by apply Forall2_flip | done |].
    destruct (unfold_ancestor _ _ _ _ _ Hpar Hui Hin) as [j Hj].
    destruct (ancestor_le _ _ _ _ Hinv Hinc Hj) as [Hle _].
    pose proof (Hinc _ _ _ Hobj Hci). lia.
  - apply NoDup_concat_disjoint.
    + intros l Hl. apply list_elem_of_In, in_map_iff in Hl as (k & <- & Hk).
      apply list_elem_of_In in Hk.
      destruct (Forall2_child_trace (fun k c => unfold fuel h c = Some k) ks
                  (children obj) k) as (ci & Hci & Hui); [by apply Forall2_flip | done |].
      by apply (IH ci k).
    + intros i j l l' x Hne Hi Hj Hx Hx'.
      rewrite lookup_map in Hi, Hj.
      destruct (ks !! i) as [ki|] eqn:Hki; [|discriminate]. injection Hi as <-.
      destruct (ks !! j) as [kj|] eqn:Hkj; [|discriminate]. injection Hj as <-.
      destruct (Forall2_lookup_r _ _ _ _ _ Hks Hki) as (ci & Hci & Hui).
      destruct (Forall2_lookup_r _ _ _ _ _ Hks Hkj) as (cj & Hcj & Huj).
      destruct (unfold_ancestor _ _ _ _ _ Hpar Hui Hx) as [a Ha].
      destruct (unfold_ancestor _ _ _ _ _ Hpar Huj Hx') as [b Hb'].
      pose proof (list_elem_of_lookup_2 _ _ _ Hci) as Hini.
      pose proof (list_elem_of_lookup_2 _ _ _ Hcj) as Hinj.
      destruct (Hpar _ _ _ Hobj Hini) as (oi & Hoi & Hpi).
      destruct (Hpar _ _ _ Hobj Hinj) as (oj & Hoj & Hpj).
      pose proof (Hinc _ _ _ Hobj Hini) as Hlti.
      pose proof (Hinc _ _ _ Hobj Hinj) as Hltj.
      assert (forall a b ci cj oi,
                ancestor h a x = Some ci -> ancestor h b x = Some cj ->
                h !! ci = Some oi -> parent oi = Some n -> n < cj ->
                a <= b -> ci = cj) as Hmeet.
      { intros a0 b0 c1 c2 o1 Ha0 Hb0 Ho1 Hp1 Hlt Hle.
        replace b0 with (a0 + (b0 - a0)) in Hb0 by lia.
        rewrite ancestor_plus, Ha0 in Hb0. simpl in Hb0.
        destruct (b0 - a0) as [|d] eqn:Hd; [by injection Hb0|].
        replace (S d) with (1 + d) in Hb0 by lia.
        rewrite ancestor_plus in Hb0. simpl in Hb0. rewrite Ho1, Hp1 in Hb0.
        simpl in Hb0. destruct (ancestor_le _ _ _ _ Hinv Hinc Hb0). lia. }
      assert (ci = cj) as ->.
      { destruct (le_lt_dec a b).
        - by eapply (Hmeet a b ci cj).
        - symmetry. eapply (Hmeet b a cj ci); [done | done | done | done | done | lia]. }
      destruct (Hinv _ _ _ Hoi Hpi) as (pobj & Hpobj & Hcount).
      rewrite Hobj in Hpobj. injection Hpobj as <-.
      pose proof (count_occ_two_positions _ _ _ _ Hne Hci Hcj). lia.
Qed.

(** C7. For a parent [p] in the store, [new SceneNode(m, t, p)] and
    [new SceneNode(m, t, null)] followed by [p.addChild] of the new node
    give the same reference and leave every [children] array of the store
    the same; in both, [p] lists the new node. This holds for the
    constructor of both sources. *)
Theorem constructor_parent_same_children h m t p :
  p < length h ->
  let with_parent := constructor h m t (Some p) in
  let alone := constructor h m t None in
  let then_added := addChild alone.1 p alone.2 in
  with_parent.2 = alone.2 /\
  (forall q, children <$> with_parent.1 !! q = children <$> then_added !! q) /\
  (exists pobj, with_parent.1 !! p = Some pobj /\ with_parent.2 ∈ children pobj) /\
  (exists pobj, then_added !! p = Some pobj /\ alone.2 ∈ children pobj) /\
  constructor_part000 h m t (Some p) = with_parent /\
  constructor_part000 h m t None = alone.
Proof.
  intros Hp with_parent alone then_added.
  assert (forall q, children <$> with_parent.1 !! q = children <$> then_added !! q) as Hsame.
  { intros q. unfold with_parent, then_added, alone, constructor, addChild. simpl.
    rewrite !list_lookup_alter. destruct (decide (p = q)) as [->|Hne].
    - by rewrite !lookup_app_l by done.
    - destruct (decide (q = length h)) as [->|Hq].
      + by rewrite !list_lookup_middle.
      + destruct (decide (q < length h)).
        * by rewrite !lookup_app_l by done.
        * rewrite !lookup_ge_None_2; [done | |]; rewrite length_app; simpl; lia. }
  assert (exists pobj, with_parent.1 !! p = Some pobj /\ with_parent.2 ∈ children pobj)
    as (pobj & Hpobj & Hin).
  { unfold with_parent. rewrite constructor_ref.
    rewrite constructor_lookup by (by intros ? [= <-]).
    rewrite decide_False by lia.
    destruct (lookup_lt_is_Some_2 h p Hp) as [old ->]. simpl.
    eexists. split; [reflexivity|]. simpl. rewrite decide_True by done.
    apply elem_of_app. right. left. }
  split; [done|]. split; [exact Hsame|]. split; [by exists pobj|].
  split; [|by rewrite !constructor_part000_eq].
  pose proof (Hsame p) as Hs. rewrite Hpobj in Hs. simpl in Hs.
  destruct (then_added !! p) as [pobj'|]; [|discriminate].
  injection Hs as Hs. exists pobj'. split; [done|]. by rewrite <- Hs.
Qed.

(** C8. In a store made by constructor calls alone, every node that has a
    parent is listed exactly once in the [children] of that parent. A
    further constructor call keeps every node, its parent, mesh and
    transform, and only appends to [children] arrays. *)
Theorem built_parent_lists_child_once h :
  built h ->
  parent_lists_child_once h /\
  (forall m t (parent_ : option ref) n obj,
     (forall q, parent_ = Some q -> q < length h) ->
     h !! n = Some obj ->
     exists obj',
       (constructor h m t parent_).1 !! n = Some obj' /\
       (constructor_part000 h m t parent_).1 !! n = Some obj' /\
       parent obj' = parent obj /\ meshDrawer obj' = meshDrawer obj /\
       trs obj' = trs obj /\ children obj `prefix_of` children obj').
Proof.
  intros Hb. split; [by apply built_invariant|].
  intros m t parent_ n obj Hp Hn.
  pose proof (lookup_lt_Some _ _ _ Hn) as Hlt.
  rewrite constructor_part000_eq, constructor_lookup by done.
  rewrite decide_False by lia. rewrite Hn. simpl.
  eexists. repeat split; simpl; try reflexivity. by eexists.
Qed.

End ConstructorTheory.

(** * Properties of the mesh drawer *)

Section MeshDrawerTheory.

Context {matrix number f32array : Type}.
Variable Float32Array : list number -> f32array.
Variable isPowerOf2 : Z -> bool.

Local Abbreviation setMesh := (MeshDrawer.setMesh matrix Float32Array).
Local Abbreviation mdraw := (MeshDrawer.draw (matrix:=matrix) f32array).
Local Abbreviation setTexture := (MeshDrawer.setTexture matrix f32array isPowerOf2).
Local Abbreviation setTexture_second :=
  (MeshDrawer.setTexture_second matrix f32array isPowerOf2).
Local Abbreviation configure := (MeshDrawer.configure matrix f32array isPowerOf2).

Lemma draw_drawn_counts (this : MeshDrawer.t) (a b c d : matrix) :
  MeshDrawer.drawn_counts (mdraw this a b c d) = [MeshDrawer.numTriangles this] /\
  last (mdraw this a b c d) =
    Some (MeshDrawer.drawArrays MeshDrawer.TRIANGLES 0 (MeshDrawer.numTriangles this)).
Proof. split; reflexivity. Qed.

Lemma all_from_spec (test : Z -> bool) count k :
  MeshDrawer.all_from test count k = true ->
  forall j : nat, j < count -> test (k + Z.of_nat j)%Z = true.
Proof.
  revert k. induction count as [|count IH]; intros k H j Hj; [lia|].
  simpl in H. apply andb_true_iff in H as [H0 H1].
  destruct j as [|j].
  - by rewrite Z.add_0_r.
  - replace (k + Z.of_nat (S j))%Z with ((k + 1) + Z.of_nat j)%Z by lia.
    apply IH; [done | lia].
Qed.

Lemma thirds_checked :
  MeshDrawer.all_from MeshDrawer.third_exact (2 ^ 16) 0 = true.
Proof. vm_compute. reflexivity. Qed.

Lemma third_of_multiple (k : nat) :
  k < 2 ^ 16 ->
  PrimFloat.Leibniz.eqb
    (PrimFloat.div (MeshDrawer.number_of_nat (3 * k)) (MeshDrawer.number_of_Z 3))
    (MeshDrawer.number_of_nat k) = true.
Proof.
  intros Hk. pose proof (all_from_spec _ _ _ thirds_checked k Hk) as H.
  unfold MeshDrawer.third_exact in H. unfold MeshDrawer.number_of_nat.
  by replace (Z.of_nat (3 * k)) with (3 * (0 + Z.of_nat k))%Z by lia.
Qed.

(** C5. After [setMesh] with [n] positions the triangle count is the
    number [n / 3] of the source, the quotient of doubles. It is the number
    [k] when [n = 3 * k] (checked, with the primitive that decides the
    equality of doubles, for every [k] below [2^16]), so 3 for nine
    positions and 0 for none. A [draw] makes one [gl.drawArrays] call, the
    last call, for [gl.TRIANGLES] from offset 0 with the stored count; that
    count is 0 after an empty [setMesh] and in a new drawer. *)
Theorem setMesh_numTriangles (this : MeshDrawer.t)
    (vertPos texCoords normals : list number) (a b c d : matrix) :
  let this' := (setMesh this vertPos texCoords normals).1 in
  MeshDrawer.numTriangles this'
    = PrimFloat.div (MeshDrawer.number_of_nat (length vertPos))
        (MeshDrawer.number_of_Z 3) /\
  (forall k : nat, length vertPos = 3 * k -> k < 2 ^ 16 ->
     PrimFloat.Leibniz.eqb (MeshDrawer.numTriangles this')
       (MeshDrawer.number_of_nat k) = true) /\
  (length vertPos = 9 ->
     MeshDrawer.numTriangles this' = MeshDrawer.number_of_nat 3) /\
  (length vertPos = 0 ->
     MeshDrawer.numTriangles this' = MeshDrawer.number_of_nat 0) /\
  MeshDrawer.drawn_counts (mdraw this' a b c d) = [MeshDrawer.numTriangles this'] /\
  last (mdraw this' a b c d) =
    Some (MeshDrawer.drawArrays MeshDrawer.TRIANGLES 0 (MeshDrawer.numTriangles this')) /\
  (forall light prog attrs unis bufs tex_,
     let fresh := MeshDrawer.constructor light prog attrs unis bufs tex_ in
     MeshDrawer.numTriangles fresh = MeshDrawer.number_of_nat 0 /\
     MeshDrawer.drawn_counts (mdraw fresh a b c d) = [MeshDrawer.number_of_nat 0] /\
     last (mdraw fresh a b c d) =
       Some (MeshDrawer.drawArrays MeshDrawer.TRIANGLES 0
               (MeshDrawer.number_of_nat 0))).
Proof.
  intros this'.
  split; [reflexivity|]. split.
  { intros k Hlen Hk. unfold this'. simpl. rewrite Hlen.
    by apply third_of_multiple. }
  split; [intros Hlen; unfold this'; simpl; by rewrite Hlen|].
  split; [intros Hlen; unfold this'; simpl; by rewrite Hlen|].
  split; [apply draw_drawn_counts|]. split; [apply draw_drawn_counts|].
  intros light prog attrs unis bufs tex_ fresh. split; [reflexivity|].
  split; apply draw_drawn_counts.
Qed.

(** C6. Let [isPowerOf2] decide the powers of two. If the width and the
    height of the image are both powers of two, [setTexture] binds the
    texture, uploads the image and calls [gl.generateMipmap]; otherwise it
    sets, in place of that call, the minification filter to [gl.LINEAR] and
    the wrap modes of S and T to [gl.CLAMP_TO_EDGE]. In both cases it ends
    by selecting texture unit 0, binding the texture and setting the
    sampler uniform to 0. The second class makes the same calls without
    [gl.useProgram]. *)
Theorem setTexture_mipmap_or_clamp (this : MeshDrawer.t) (img : MeshDrawer.image) :
  (forall v, isPowerOf2 v = true <-> MeshDrawer.power_of_two v) ->
  let upload :=
    [MeshDrawer.bindTexture MeshDrawer.TEXTURE_2D (MeshDrawer.texture this);
     MeshDrawer.texImage2D MeshDrawer.TEXTURE_2D 0 MeshDrawer.RGB MeshDrawer.RGB
       MeshDrawer.UNSIGNED_BYTE img] in
  let unit0 :=
    [MeshDrawer.activeTexture MeshDrawer.TEXTURE0;
     MeshDrawer.bindTexture MeshDrawer.TEXTURE_2D (MeshDrawer.texture this);
     MeshDrawer.uniform1i (MeshDrawer.tex (MeshDrawer.uniformLocations this)) 0] in
  let clamp :=
    [MeshDrawer.texParameteri MeshDrawer.TEXTURE_2D MeshDrawer.TEXTURE_MIN_FILTER
       MeshDrawer.LINEAR;
     MeshDrawer.texParameteri MeshDrawer.TEXTURE_2D MeshDrawer.TEXTURE_WRAP_S
       MeshDrawer.CLAMP_TO_EDGE;
     MeshDrawer.texParameteri MeshDrawer.TEXTURE_2D MeshDrawer.TEXTURE_WRAP_T
       MeshDrawer.CLAMP_TO_EDGE] in
  (MeshDrawer.power_of_two (MeshDrawer.width img) /\
   MeshDrawer.power_of_two (MeshDrawer.height img) ->
     setTexture this img =
       upload ++ [MeshDrawer.generateMipmap MeshDrawer.TEXTURE_2D]
       ++ MeshDrawer.useProgram (MeshDrawer.prog this) :: unit0 /\
     setTexture_second this img =
       upload ++ [MeshDrawer.generateMipmap MeshDrawer.TEXTURE_2D] ++ unit0) /\
  (~ (MeshDrawer.power_of_two (MeshDrawer.width img) /\
      MeshDrawer.power_of_two (MeshDrawer.height img)) ->
     setTexture this img =
       upload ++ clamp ++ MeshDrawer.useProgram (MeshDrawer.prog this) :: unit0 /\
     setTexture_second this img = upload ++ clamp ++ unit0) /\
  (exists before before',
     setTexture this img = before ++ unit0 /\
     setTexture_second this img = before' ++ unit0).
Proof.
  intros Hspec upload unit0 clamp.
  assert (isPowerOf2 (MeshDrawer.width img) && isPowerOf2 (MeshDrawer.height img) = true
          <-> MeshDrawer.power_of_two (MeshDrawer.width img) /\
              MeshDrawer.power_of_two (MeshDrawer.height img)) as Hboth.
  { by rewrite andb_true_iff, !Hspec. }
  split; [|split].
  - intros Hpow. apply Hboth in Hpow.
    unfold MeshDrawer.setTexture, MeshDrawer.setTexture_second, MeshDrawer.configure.
    by rewrite Hpow.
  - intros Hnot.
    unfold MeshDrawer.setTexture, MeshDrawer.setTexture_second, MeshDrawer.configure.
    destruct (isPowerOf2 _ && isPowerOf2 _) eqn:Hb; [|done].
    destruct Hnot. by apply Hboth.
  - exists (upload ++ configure img ++ [MeshDrawer.useProgram (MeshDrawer.prog this)]),
           (upload ++ configure img).
    unfold MeshDrawer.setTexture, MeshDrawer.setTexture_second.
    by rewrite <- !app_assoc.
Qed.

End MeshDrawerTheory.

(** * The concrete scene *)

Lemma Example_mult_identity_l (A : Example.mat4) :
  Example.mult Example.identity A = A.
Proof.
  destruct A as [[[[[[a1 a2] a3] a4] [[[b1 b2] b3] b4]] [[[c1 c2] c3] c4]]
                 [[[d1 d2] d3] d4]].
  unfold Example.mult, Example.identity, Example.row_times, Example.column,
    Example.dot.
  repeat f_equal; lia.
Qed.

Lemma Example_isPowerOf2_spec (v : Z) :
  Example.isPowerOf2 v = true <-> MeshDrawer.power_of_two v.
Proof.
  unfold Example.isPowerOf2, MeshDrawer.power_of_two. rewrite Z.eqb_eq. split.
  - intros Hv. exists (Z.log2 v). split; [apply Z.log2_nonneg | exact Hv].
  - intros (k & Hk & ->). by rewrite Z.log2_pow2.
Qed.

Lemma Example_scene_unfold : unfold 4 Example.scene 0 = Some Example.scene_tree.
Proof. reflexivity. Qed.

Lemma Example_scene_tree_NoDup : NoDup (ids Example.scene_tree).
Proof. apply (bool_decide_unpack _). by vm_compute. Qed.

Lemma Example_scene_built : built Example.scene.
Proof.
  unfold Example.scene. cbv zeta.
  apply built_child; [|simpl; lia].
  apply built_child_part000; [|simpl; lia].
  apply built_child; [|simpl; lia].
  apply built_child_part000; [|simpl; lia].
  apply built_child; [|simpl; lia].
  apply built_root. apply built_empty.
Qed.


Lemma draw_root_product_witness :
  let I := Example.identity in
  let M := Example.getTransformationMatrix in
  let P := Example.mult (Example.mult (Example.mult (M Example.T0) (M Example.T1))
                           (M Example.T3)) (M Example.T4) in
  (forall A, Example.mult I A = A) /\
  unfold 4 Example.scene 0 = Some Example.scene_tree /\
  NoDup (ids Example.scene_tree) /\
  at_path Example.scene_tree [0; 0; 0] = Some (Tree 4 (Some 14) Example.T4 []) /\
  exists tr tr',
    draw Example.mult M 4 Example.scene 0 I I I I = Some tr /\
    draw_part000 Example.mult M 4 Example.scene 0 I I I I = Some tr' /\
    EvMesh 4 14 P P P P ∈ tr /\ EvMesh 4 14 P P P P ∈ tr'.
Proof.
  intros I M P.
  split; [exact Example_mult_identity_l|]. split; [exact Example_scene_unfold|].
  split; [exact Example_scene_tree_NoDup|]. split; [reflexivity|].
  destruct (draw_root_product Example.mult M I 4 Example.scene 0 Example.scene_tree
              [0; 0; 0] 4 14 Example.T4 [] Example_mult_identity_l
              Example_scene_unfold Example_scene_tree_NoDup eq_refl)
    as (_ & tr & tr' & Hd & Hd' & Hin & Hin' & _).
  exists tr, tr'. split; [exact Hd|]. split; [exact Hd'|].
  split; [exact Hin | exact Hin'].
Defined.



Lemma draw_each_node_once_witness :
  let I := Example.identity in
  unfold 4 Example.scene 0 = Some Example.scene_tree /\
  NoDup (ids Example.scene_tree) /\
  exists tr,
    draw Example.mult Example.getTransformationMatrix 7 Example.scene 0 I I I I
      = Some tr /\
    NoDup (entered tr) /\
    (forall n, n ∈ entered tr <-> n ∈ [0; 1; 3; 4; 2; 5]) /\
    NoDup (mesh_calls tr).*1 /\
    (5, 15) ∈ mesh_calls tr.
Proof.
  intros I.
  split; [exact Example_scene_unfold|]. split; [exact Example_scene_tree_NoDup|].
  destruct (draw_each_node_once Example.mult Example.getTransformationMatrix
              4 Example.scene 0 Example.scene_tree I I I I
              Example_scene_unfold Example_scene_tree_NoDup) as [Hall _].
  destruct (Hall 7 ltac:(lia)) as (tr & Hd & Hnd & Hin & Hnd' & Hmesh).
  exists tr. split; [exact Hd|]. split; [exact Hnd|]. split; [exact Hin|].
  split; [exact Hnd'|]. apply Hmesh. split; [|reflexivity].
  apply list_elem_of_In. simpl. tauto.
Defined.

Lemma draw_no_error_witness :
  let I := Example.identity in
  unfold 4 Example.scene 0 = Some Example.scene_tree /\
  exists tr tr',
    draw Example.mult Example.getTransformationMatrix 9 Example.scene 0 I I I I
      = Some tr /\
    draw_part000 Example.mult Example.getTransformationMatrix 9 Example.scene 0
      I I I I = Some tr' /\
    entered tr = [0; 1; 3; 4; 2; 5] /\ entered tr' = [0; 1; 3; 4; 2; 5] /\
    (forall m, (2, m) ∉ mesh_calls tr).
Proof.
  intros I. split; [exact Example_scene_unfold|].
  destruct (draw_no_error Example.mult Example.getTransformationMatrix
              4 Example.scene 0 Example.scene_tree Example_scene_unfold)
    as [Hret _].
  destruct (Hret 9 I I I I ltac:(lia)) as (tr & tr' & Hd & Hd' & He & He' & Hm & _).
  exists tr, tr'. split; [exact Hd|]. split; [exact Hd'|].
  split; [exact He|]. split; [exact He'|].
  intros m Hin. apply Hm in Hin as [_ Hmesh]. discriminate Hmesh.
Defined.

Lemma draw_variants_same_calls_witness :
  let I := Example.identity in
  unfold 4 Example.scene 0 = Some Example.scene_tree /\
  exists tr tr',
    draw Example.mult Example.getTransformationMatrix 4 Example.scene 0 I I I I
      = Some tr /\
    draw_part000 Example.mult Example.getTransformationMatrix 4 Example.scene 0
      I I I I = Some tr' /\
    tr ≡ₚ tr' /\ entered tr = entered tr'.
Proof.
  intros I. split; [exact Example_scene_unfold|].
  destruct (draw_variants_same_calls Example.mult Example.getTransformationMatrix
              4 Example.scene 0 I I I I) as [_ Htree].
  destruct (Htree Example.scene_tree Example_scene_unfold)
    as (tr & tr' & Hd & Hd' & Hp & _ & He & _).
  exists tr, tr'. split; [exact Hd|]. split; [exact Hd'|]. split; [exact Hp | exact He].
Defined.

Lemma constructor_parent_same_children_witness :
  0 < length Example.pair_scene /\
  (constructor Example.pair_scene (Some 12) Example.T2 (Some 0)).2 = 2 /\
  (exists pobj,
     (constructor Example.pair_scene (Some 12) Example.T2 (Some 0)).1 !! 0 = Some pobj /\
     children pobj = [1; 2]) /\
  (exists pobj,
     addChild (constructor Example.pair_scene (Some 12) Example.T2 None).1 0 2 !! 0
       = Some pobj /\
     children pobj = [1; 2]).
Proof.
  assert (0 < length Example.pair_scene) as Hlt by (simpl; lia).
  split; [exact Hlt|].
  destruct (constructor_parent_same_children Example.pair_scene (Some 12) Example.T2 0 Hlt)
    as (_ & Hsame & _).
  split; [reflexivity|]. split.
  - eexists. split; reflexivity.
  - pose proof (Hsame 0) as H0. eexists. split; reflexivity.
Defined.

Lemma built_parent_lists_child_once_witness :
  built Example.scene /\ parent_lists_child_once Example.scene.
Proof.
  split; [exact Example_scene_built|].
  exact (proj1 (built_parent_lists_child_once Example.scene Example_scene_built)).
Defined.

Lemma setMesh_numTriangles_witness :
  let this' :=
    (MeshDrawer.setMesh Example.mat4 (fun l : list Z => l) Example.drawer
       [0; 0; 0; 1; 0; 0; 0; 1; 0]%Z [0; 0; 1; 0; 0; 1]%Z
       [0; 0; 1; 0; 0; 1; 0; 0; 1]%Z).1 in
  length [0; 0; 0; 1; 0; 0; 0; 1; 0]%Z = 9 /\
  MeshDrawer.numTriangles this' = MeshDrawer.number_of_nat 3 /\
  MeshDrawer.drawn_counts
    (MeshDrawer.draw (list Z) this' Example.identity Example.identity
       Example.identity Example.identity) = [MeshDrawer.number_of_nat 3].
Proof.
  intros this'.
  destruct (setMesh_numTriangles (matrix:=Example.mat4) (fun l : list Z => l)
              Example.drawer [0; 0; 0; 1; 0; 0; 0; 1; 0]%Z [0; 0; 1; 0; 0; 1]%Z
              [0; 0; 1; 0; 0; 1; 0; 0; 1]%Z Example.identity Example.identity
              Example.identity Example.identity)
    as (_ & _ & Hnine & _ & Hcounts & _).
  split; [reflexivity|]. split; [exact (Hnine eq_refl)|].
  rewrite <- (Hnine eq_refl). exact Hcounts.
Defined.

Lemma setTexture_mipmap_or_clamp_witness :
  (forall v, Example.isPowerOf2 v = true <-> MeshDrawer.power_of_two v) /\
  MeshDrawer.power_of_two 256 /\
  MeshDrawer.setTexture Example.mat4 (list Z) Example.isPowerOf2 Example.drawer
    (MeshDrawer.mkImage 256 256)
  = [MeshDrawer.bindTexture MeshDrawer.TEXTURE_2D 30;
     MeshDrawer.texImage2D MeshDrawer.TEXTURE_2D 0 MeshDrawer.RGB MeshDrawer.RGB
       MeshDrawer.UNSIGNED_BYTE (MeshDrawer.mkImage 256 256);
     MeshDrawer.generateMipmap MeshDrawer.TEXTURE_2D;
     MeshDrawer.useProgram 1;
     MeshDrawer.activeTexture MeshDrawer.TEXTURE0;
     MeshDrawer.bindTexture MeshDrawer.TEXTURE_2D 30;
     MeshDrawer.uniform1i 5 0].
Proof.
  assert (MeshDrawer.power_of_two 256) as H256.
  { exists 8%Z. split; [lia | reflexivity]. }
  split; [exact Example_isPowerOf2_spec|]. split; [exact H256|].
  destruct (setTexture_mipmap_or_clamp (matrix:=Example.mat4) (f32array:=list Z)
              Example.isPowerOf2 Example.drawer (MeshDrawer.mkImage 256 256)
              Example_isPowerOf2_spec) as (Hpow & _ & _).
  destruct (Hpow (conj H256 H256)) as [Hcalls _]. exact Hcalls.
Defined.

(** The fallback path on an image of 100 by 100, in the second class. *)
Lemma Example_setTexture_100 :
  ~ MeshDrawer.power_of_two 100 /\
  MeshDrawer.setTexture_second Example.mat4 (list Z) Example.isPowerOf2 Example.drawer
    (MeshDrawer.mkImage 100 100)
  = [MeshDrawer.bindTexture MeshDrawer.TEXTURE_2D 30;
     MeshDrawer.texImage2D MeshDrawer.TEXTURE_2D 0 MeshDrawer.RGB MeshDrawer.RGB
       MeshDrawer.UNSIGNED_BYTE (MeshDrawer.mkImage 100 100);
     MeshDrawer.texParameteri MeshDrawer.TEXTURE_2D MeshDrawer.TEXTURE_MIN_FILTER
       MeshDrawer.LINEAR;
     MeshDrawer.texParameteri MeshDrawer.TEXTURE_2D MeshDrawer.TEXTURE_WRAP_S
       MeshDrawer.CLAMP_TO_EDGE;
     MeshDrawer.texParameteri MeshDrawer.TEXTURE_2D MeshDrawer.TEXTURE_WRAP_T
       MeshDrawer.CLAMP_TO_EDGE;
     MeshDrawer.activeTexture MeshDrawer.TEXTURE0;
     MeshDrawer.bindTexture MeshDrawer.TEXTURE_2D 30;
     MeshDrawer.uniform1i 5 0].
Proof.
  split; [|reflexivity].
  intros Hpow%Example_isPowerOf2_spec. discriminate Hpow.
Qed.

(** The scene of six nodes is a tree of distinct nodes because it was made
    by constructor calls. *)
Lemma Example_scene_forest :
  exists T, unfold 6 Example.scene 0 = Some T /\ NoDup (ids T).
Proof. exact (built_forest Example.scene 0 Example_scene_built ltac:(simpl; lia)). Qed.

(** * Further properties of the scene graph *)

Section SceneGraphMore.

Context {matrix TRS : Type}.
Variable MatrixMult : matrix -> matrix -> matrix.
Variable getTransformationMatrix : TRS -> matrix.

Local Abbreviation draw := (draw MatrixMult getTransformationMatrix).
Local Abbreviation draw_part000 := (draw_part000 MatrixMult getTransformationMatrix).
Local Abbreviation tdraw := (tdraw MatrixMult getTransformationMatrix).
Local Abbreviation left_mult := (left_mult MatrixMult).
Local Abbreviation event := (event matrix).

Implicit Types (h : heap TRS) (t : tree TRS) (tr : list event) (n r : ref).

(** *** More on loops *)

Lemma forEach_ext_in {A} (l : list A) (f g : A -> option (list event)) :
  (forall x, x ∈ l -> f x = g x) -> forEach l f = forEach l g.
Proof.
  induction l as [|x l IH]; intros Hfg; simpl; [done|].
  rewrite (Hfg x) by left. rewrite IH; [done|]. intros y Hy. apply Hfg. by right.
Qed.

Lemma forEach_None {A} (l : list A) (f : A -> option (list event)) x :
  x ∈ l -> f x = None -> forEach l f = None.
Proof.
  induction l as [|y l IH]; intros Hx Hnone; [by apply elem_of_nil in Hx|].
  simpl. apply elem_of_cons in Hx as [<-|Hx]; [by rewrite Hnone|].
  rewrite (IH Hx Hnone). by destruct (f y).
Qed.

Lemma forEach_fmap {A} (l : list A) (f : A -> option (list event))
    (g : event -> event) :
  forEach l (fun x => map g <$> f x) = map g <$> forEach l f.
Proof.
  induction l as [|x l IH]; simpl; [done|].
  destruct (f x) as [a|]; simpl; [|done]. rewrite IH.
  destruct (forEach l f) as [b|]; simpl; [|done]. by rewrite map_app.
Qed.

Lemma forEach_app {A} (l1 l2 : list A) (f : A -> option (list event)) :
  forEach (l1 ++ l2) f =
    match forEach l1 f with
    | Some a => app a <$> forEach l2 f
    | None => None
    end.
Proof.
  induction l1 as [|x l1 IH]; simpl.
  - by destruct (forEach l2 f).
  - destruct (f x) as [a|]; [|done]. rewrite IH.
    destruct (forEach l1 f) as [b|]; [|done].
    destruct (forEach l2 f) as [c|]; simpl; [|done]. by rewrite app_assoc.
Qed.

(** *** What [draw] reads *)

Lemma draw_same_below h1 h2 :
  (forall n, option_Forall2 same_below (h1 !! n) (h2 !! n)) ->
  forall fuel n (a b c d : matrix),
    draw fuel h1 n a b c d = draw fuel h2 n a b c d /\
    draw_part000 fuel h1 n a b c d = draw_part000 fuel h2 n a b c d.
Proof.
  intros Hsame. induction fuel as [|fuel IH]; intros n a b c d; simpl; [done|].
  destruct (Hsame n) as [o1 o2 (Hm & Ht & Hc)|]; [|done].
  rewrite Hm, Ht, Hc. split.
  - erewrite forEach_ext_in; [reflexivity|]. intros child _. apply IH.
  - erewrite forEach_ext_in; [reflexivity|]. intros child _. apply IH.
Qed.

(** X1. [draw] reads the mesh, the transform and the children of the nodes
    and nothing else: on two stores whose objects agree on these three
    fields at every reference, whatever their [parent] fields, both [draw]
    functions give the same result from every node. *)
Theorem draw_ignores_parent h1 h2 fuel n (a b c d : matrix) :
  (forall x, option_Forall2 same_below (h1 !! x) (h2 !! x)) ->
  draw fuel h1 n a b c d = draw fuel h2 n a b c d /\
  draw_part000 fuel h1 n a b c d = draw_part000 fuel h2 n a b c d.
Proof. intros Hsame. by apply draw_same_below. Qed.

(** X3. [draw] does not return from a node on a cycle of [children]
    links. If [P] holds of [n] and every node of [P] has a child in [P],
    then [draw] on [n] exhausts every stack depth, in both sources. *)
Theorem draw_diverges_on_cycle (P : ref -> Prop) h n :
  (forall x obj, P x -> h !! x = Some obj -> exists c, c ∈ children obj /\ P c) ->
  P n ->
  forall fuel (a b c d : matrix),
    draw fuel h n a b c d = None /\ draw_part000 fuel h n a b c d = None.
Proof.
  intros Hcycle Hn fuel. revert n Hn.
  induction fuel as [|fuel IH]; intros n Hn a b c d; simpl; [done|].
  destruct (h !! n) as [obj|] eqn:Hobj; [|done].
  destruct (Hcycle n obj Hn Hobj) as (child & Hin & HP).
  split.
  - erewrite forEach_None; [done | exact Hin |]. by apply IH.
  - erewrite forEach_None; [done | exact Hin |]. by apply IH.
Qed.

(** X4. Transform propagation commutes with a change of the incoming
    matrices. If [MatrixMult] is associative, a [draw] with the incoming
    matrices [A*a], [B*b], [C*c], [D*d] makes the calls of the [draw] with
    [a], [b], [c], [d], in the same order, every matrix multiplied on the
    left by the factor of its channel. *)
Theorem draw_left_mult fuel h n (A B C D a b c d : matrix) :
  (forall X Y Z, MatrixMult (MatrixMult X Y) Z = MatrixMult X (MatrixMult Y Z)) ->
  draw fuel h n (MatrixMult A a) (MatrixMult B b) (MatrixMult C c) (MatrixMult D d)
    = map (left_mult A B C D) <$> draw fuel h n a b c d /\
  draw_part000 fuel h n (MatrixMult A a) (MatrixMult B b) (MatrixMult C c)
      (MatrixMult D d)
    = map (left_mult A B C D) <$> draw_part000 fuel h n a b c d.
Proof.
  intros Hassoc. revert n a b c d.
  induction fuel as [|fuel IH]; intros n a b c d; simpl; [done|].
  destruct (h !! n) as [obj|]; [|done]. rewrite !Hassoc. split.
  - erewrite forEach_ext_in; [|intros child _; apply IH].
    rewrite forEach_fmap. destruct (forEach _ _) as [below|]; simpl; [|done].
    rewrite map_app. by destruct (meshDrawer obj).
  - erewrite forEach_ext_in; [|intros child _; apply IH].
    rewrite forEach_fmap. destruct (forEach _ _) as [below|]; simpl; [|done].
    destruct (meshDrawer obj); simpl; by rewrite ?map_app.
Qed.

End SceneGraphMore.

(** * Constructed stores and their traversal *)

Section StoreTraversal.

Context {matrix TRS : Type}.
Variable MatrixMult : matrix -> matrix -> matrix.
Variable getTransformationMatrix : TRS -> matrix.

Local Abbreviation draw := (draw MatrixMult getTransformationMatrix).
Local Abbreviation draw_part000 := (draw_part000 MatrixMult getTransformationMatrix).
Local Abbreviation tdraw := (tdraw MatrixMult getTransformationMatrix).
Local Abbreviation tdraw_part000 := (tdraw_part000 MatrixMult getTransformationMatrix).
Local Abbreviation event := (event matrix).

Implicit Types (h : heap TRS) (tr : list event) (n p r : ref) (m : option meshref).

Lemma same_below_refl (o : SceneNode TRS) : same_below o o.
Proof. by repeat split. Qed.

(** X2. For a parent [p] in the store, the store left by
    [new SceneNode(m, t, p)] and the store left by
    [new SceneNode(m, t, null)] followed by [p.addChild] of the new node are
    drawn alike: from every node and with every stack depth both [draw]
    functions give the same result on the two stores. *)
Theorem constructor_paths_draw_same h m (t : TRS) p fuel n (a b c d : matrix) :
  p < length h ->
  let with_parent := (constructor h m t (Some p)).1 in
  let then_added := addChild (constructor h m t None).1 p (length h) in
  draw fuel with_parent n a b c d = draw fuel then_added n a b c d /\
  draw_part000 fuel with_parent n a b c d = draw_part000 fuel then_added n a b c d.
Proof.
  intros Hp with_parent then_added. apply draw_same_below. intros x.
  unfold with_parent, then_added, constructor, addChild. simpl.
  rewrite !list_lookup_alter. destruct (decide (p = x)) as [->|Hne].
  - rewrite !lookup_app_l by done.
    destruct (h !! x); constructor. apply same_below_refl.
  - destruct (decide (x = length h)) as [->|Hx].
    + rewrite !list_lookup_middle by done. constructor. by repeat split.
    + destruct (decide (x < length h)).
      * rewrite !lookup_app_l by done.
        destruct (h !! x); constructor. apply same_below_refl.
      * rewrite !lookup_ge_None_2; [constructor | |]; rewrite length_app; simpl; lia.
Qed.

(** X10. The two ways of attaching a new node differ in the back
    reference alone. For a parent [p] in the store, after
    [new SceneNode(m, t, p)] the new node has [p] as its [parent]; after
    [new SceneNode(m, t, null)] and [p.addChild] its [parent] is still null,
    although [p] lists it, since [addChild] sets no [parent]. Every other
    object of the two stores is the same. *)
Theorem constructor_paths_differ_in_parent h m (t : TRS) p :
  p < length h ->
  let with_parent := (constructor h m t (Some p)).1 in
  let then_added := addChild (constructor h m t None).1 p (length h) in
  with_parent !! length h = Some (mkSceneNode m t (Some p) []) /\
  then_added !! length h = Some (mkSceneNode m t None []) /\
  (forall x, x <> length h -> with_parent !! x = then_added !! x) /\
  (exists pobj, then_added !! p = Some pobj /\ length h ∈ children pobj) /\
  ~ children_have_parent then_added.
Proof.
  intros Hp with_parent then_added.
  assert (forall node, alter (push_child (length h)) p (h ++ [node]) !! length h
                       = Some node) as Hnew.
  { intros node. rewrite list_lookup_alter_ne by lia. by rewrite list_lookup_middle. }
  assert (exists pobj, then_added !! p = Some pobj /\ length h ∈ children pobj)
    as (pobj & Hpobj & Hin).
  { unfold then_added, constructor, addChild. simpl.
    rewrite list_lookup_alter_eq, lookup_app_l by done.
    destruct (lookup_lt_is_Some_2 h p Hp) as [old ->]. simpl.
    eexists. split; [reflexivity|]. simpl. apply elem_of_app. right. left. }
  split; [apply Hnew|]. split; [apply Hnew|]. split; [|split; [by exists pobj|]].
  - intros x Hx. unfold with_parent, then_added, constructor, addChild. simpl.
    rewrite !list_lookup_alter. destruct (decide (x < length h)).
    + by rewrite !lookup_app_l by done.
    + rewrite !(lookup_ge_None_2 _ x) by (rewrite length_app; simpl; lia).
      case_decide; [lia | done].
  - intros Hlinks. destruct (Hlinks _ _ _ Hpobj Hin) as (cobj & Hcobj & Hpar).
    unfold then_added, constructor, addChild in Hcobj. simpl in Hcobj.
    rewrite Hnew in Hcobj. injection Hcobj as <-. discriminate Hpar.
Qed.

(** X5. In a store made by constructor calls alone, [draw] returns from
    every node [n] within the stack depth [length h - n]; it enters no node
    twice, and only [n] and nodes made after [n]. The [draw] of the other
    source returns a permutation of the same trace. *)
Theorem built_draw_returns h n (a b c d : matrix) :
  built h -> n < length h ->
  exists tr tr',
    draw (length h - n) h n a b c d = Some tr /\
    draw_part000 (length h - n) h n a b c d = Some tr' /\
    tr ≡ₚ tr' /\
    NoDup (entered tr) /\
    (forall x, x ∈ entered tr -> n <= x < length h).
Proof.
  intros Hbuilt Hn.
  destruct (built_forest h n Hbuilt Hn) as (T & HT & Hnd).
  destruct (built_links h Hbuilt) as (Hb & Hinv & Hinc & Hpar).
  destruct (unfold_traces MatrixMult getTransformationMatrix _ _ _ _ a b c d HT)
    as (Hd & Hd' & Hperm & _).
  exists (tdraw T a b c d), (tdraw_part000 T a b c d).
  split; [exact Hd|]. split; [exact Hd'|]. split; [exact Hperm|].
  rewrite entered_tdraw. split; [exact Hnd|].
  intros x Hx. split.
  - destruct (unfold_ancestor _ _ _ _ _ Hpar HT Hx) as [j Hj].
    by destruct (ancestor_le _ _ _ _ Hinv Hinc Hj).
  - apply list_elem_of_fmap in Hx as ([x' mx] & -> & Hx).
    destruct (unfold_nodes _ _ _ _ _ _ HT Hx) as (obj & Hobj & _).
    by eapply lookup_lt_Some.
Qed.

(** X6. In a store made by constructor calls alone the two directions of
    the parent link agree: every entry of a [children] array is a node of
    the store, made after the node that lists it and with that node as its
    [parent]; so no node is listed by two nodes, and a parent is older than
    its child. *)
Theorem built_children_agree_with_parent h :
  built h ->
  (forall n obj c,
     h !! n = Some obj -> c ∈ children obj ->
     n < c < length h /\
     exists cobj, h !! c = Some cobj /\ parent cobj = Some n) /\
  (forall n1 n2 o1 o2 c,
     h !! n1 = Some o1 -> h !! n2 = Some o2 ->
     c ∈ children o1 -> c ∈ children o2 -> n1 = n2) /\
  (forall n obj p, h !! n = Some obj -> parent obj = Some p -> p < n).
Proof.
  intros Hbuilt. destruct (built_links h Hbuilt) as (Hb & Hinv & Hinc & Hpar).
  split; [|split].
  - intros n obj c Hn Hc. split; [split|]; [by eapply Hinc | by eapply Hb | by eapply Hpar].
  - intros n1 n2 o1 o2 c H1 H2 Hc1 Hc2.
    destruct (Hpar _ _ _ H1 Hc1) as (cobj & Hcobj & Hp1).
    destruct (Hpar _ _ _ H2 Hc2) as (cobj' & Hcobj' & Hp2).
    congruence.
  - intros n obj p Hn Hp.
    destruct (Hinv _ _ _ Hn Hp) as (pobj & Hpobj & Hcount).
    eapply Hinc; [exact Hpobj|].
    apply list_elem_of_In, (count_occ_In Nat.eq_dec). lia.
Qed.

Lemma trace_length tr : length tr = length (entered tr) + length (mesh_calls tr).
Proof.
  unfold entered, mesh_calls. induction tr as [|e l IH]; [done|].
  change (omap entry_of (e :: l))
    with (from_option (fun x => x :: omap entry_of l) (omap entry_of l) (entry_of e)).
  change (omap mesh_call_of (e :: l))
    with (from_option (fun x => x :: omap mesh_call_of l) (omap mesh_call_of l)
            (mesh_call_of e)).
  destruct e; simpl; rewrite IH; lia.
Qed.

(** X7. Where the object graph below [r] is finite and acyclic, nodes may
    be shared: [draw] enters the nodes once for every path that leads to
    them from [r], in the order of the unfolding, and calls
    [MeshDrawer.draw] once for every such path to a node with a mesh. A
    node added to two parents is drawn under each. *)
Theorem draw_follows_unfolding fuel h r (t : tree TRS) (a b c d : matrix) :
  unfold fuel h r = Some t ->
  exists tr tr',
    draw fuel h r a b c d = Some tr /\
    draw_part000 fuel h r a b c d = Some tr' /\
    entered tr = ids t /\ entered tr' = ids t /\
    mesh_calls tr ≡ₚ mesh_nodes t /\ mesh_calls tr' = mesh_nodes t /\
    length tr = length (ids t) + length (mesh_nodes t).
Proof.
  intros Hu.
  destruct (unfold_traces MatrixMult getTransformationMatrix _ _ _ _ a b c d Hu)
    as (Hd & Hd' & Hperm & Hent).
  pose proof (entered_tdraw MatrixMult getTransformationMatrix t a b c d) as He.
  pose proof (mesh_calls_tdraw_part000 MatrixMult getTransformationMatrix t a b c d)
    as Hm.
  assert (mesh_calls (tdraw t a b c d) ≡ₚ mesh_nodes t) as Hm'.
  { unfold mesh_calls. rewrite Hperm. fold (mesh_calls (tdraw_part000 t a b c d)).
    by rewrite Hm. }
  exists (tdraw t a b c d), (tdraw_part000 t a b c d).
  split; [exact Hd|]. split; [exact Hd'|]. split; [exact He|].
  split; [by rewrite <- Hent|]. split; [exact Hm'|]. split; [exact Hm|].
  rewrite <- He, <- Hm'. apply trace_length.
Qed.

(** *** The depth of the recursion *)

Lemma height_kid (k : tree TRS) ks : k ∈ ks -> height k <= list_max (map height ks).
Proof.
  intros Hk. pose proof (proj1 (list_max_le (map height ks) _) (le_n _)) as Hall.
  rewrite List.Forall_forall in Hall. apply Hall, in_map. by apply list_elem_of_In.
Qed.

Lemma unfold_height_le fuel h r (t : tree TRS) :
  unfold fuel h r = Some t -> height t <= fuel.
Proof.
  revert r t. induction fuel as [|fuel IH]; intros r t Hu; [discriminate|].
  destruct (unfold_Some _ _ _ _ Hu) as (f0 & obj & ks & [= <-] & Hr & Hks & ->).
  simpl. apply le_n_S, list_max_le, List.Forall_forall. intros x Hx.
  apply in_map_iff in Hx as (k & <- & Hk). apply list_elem_of_In in Hk.
  destruct (Forall2_child_trace (fun k c => unfold fuel h c = Some k) ks
              (children obj) k) as (ci & _ & Hui); [by apply Forall2_flip | done |].
  by eapply IH.
Qed.

Lemma unfold_at_height fuel h r (t : tree TRS) :
  unfold fuel h r = Some t -> unfold (height t) h r = Some t.
Proof.
  revert r t. induction fuel as [|fuel IH]; intros r t Hu; [discriminate|].
  destruct (unfold_Some _ _ _ _ Hu) as (f0 & obj & ks & [= <-] & Hr & Hks & ->).
  simpl. rewrite Hr.
  assert (mapM (unfold (list_max (map height ks)) h) (children obj) = Some ks) as ->;
    [|done].
  apply mapM_Some.
  assert (forall k, k ∈ ks -> height k <= list_max (map height ks)) as Hle.
  { intros k. apply height_kid. }
  clear Hu Hr. revert Hle. generalize (list_max (map height ks)) as bound.
  intros bound Hle. induction Hks as [|c k cs ks' Hc Hcs IHks]; constructor.
  - eapply unfold_mono; [by eapply IH|]. apply Hle. left.
  - apply IHks. intros k' Hk'. apply Hle. by right.
Qed.

Lemma unfold_agree f1 f2 h r (t1 t2 : tree TRS) :
  unfold f1 h r = Some t1 -> unfold f2 h r = Some t2 -> t1 = t2.
Proof.
  intros H1 H2.
  pose proof (unfold_mono _ (f1 `max` f2) _ _ _ H1 ltac:(lia)) as H1'.
  pose proof (unfold_mono _ (f1 `max` f2) _ _ _ H2 ltac:(lia)) as H2'.
  congruence.
Qed.

Lemma draw_unfold fuel h r (a b c d : matrix) tr :
  draw fuel h r a b c d = Some tr -> exists t, unfold fuel h r = Some t.
Proof.
  revert r a b c d tr. induction fuel as [|fuel IH]; intros r a b c d tr; simpl;
    [discriminate|].
  destruct (h !! r) as [obj|]; [|discriminate].
  destruct (forEach _ _) as [below|] eqn:Hbelow; [|discriminate]. intros _.
  apply forEach_Some in Hbelow as (kts & HF & _).
  assert (exists ks, mapM (unfold fuel h) (children obj) = Some ks) as [ks ->];
    [|by eexists].
  induction HF as [|child kt cs kts Hkt _ IHF]; [by exists []|].
  destruct (IH _ _ _ _ _ _ Hkt) as [k Hk]. destruct IHF as [ks Hks].
  exists (k :: ks). apply mapM_Some. constructor; [done | by apply mapM_Some].
Qed.

(** X8. The stack depth that [draw] needs is the height of the tree. Where
    the object graph below [r] unfolds to the tree [t], both [draw]
    functions return exactly when the bound on the nesting of calls is at
    least the number of nodes on the longest path from [r] to a leaf. *)
Theorem draw_depth_is_height fuel h r (t : tree TRS) fuel' (a b c d : matrix) :
  unfold fuel h r = Some t ->
  (is_Some (draw fuel' h r a b c d) <-> height t <= fuel') /\
  (is_Some (draw_part000 fuel' h r a b c d) <-> height t <= fuel').
Proof.
  intros Hu.
  assert (is_Some (draw fuel' h r a b c d) <-> height t <= fuel') as Hiff.
  { split.
    - intros [tr Htr]. destruct (draw_unfold _ _ _ _ _ _ _ _ Htr) as [t' Ht'].
      rewrite (unfold_agree _ _ _ _ _ _ Hu Ht'). by eapply unfold_height_le.
    - intros Hle. pose proof (unfold_at_height _ _ _ _ Hu) as Hh.
      pose proof (unfold_mono _ _ _ _ _ Hh Hle) as Hu'.
      rewrite (unfold_draw MatrixMult getTransformationMatrix _ _ _ _ a b c d Hu').
      by eexists. }
  split; [exact Hiff|]. rewrite <- Hiff.
  destruct (draw_same_calls MatrixMult getTransformationMatrix fuel' h r a b c d)
    as [tr tr' _|]; split; intros [? [=]]; by eexists.
Qed.

(** *** Adding a leaf *)

Lemma draw_S fuel h n (a b c d : matrix) :
  draw (S fuel) h n a b c d =
    match h !! n with
    | None => None
    | Some obj =>
        match forEach (children obj) (fun child =>
                draw fuel h child
                  (MatrixMult a (getTransformationMatrix (trs obj)))
                  (MatrixMult b (getTransformationMatrix (trs obj)))
                  (MatrixMult c (getTransformationMatrix (trs obj)))
                  (MatrixMult d (getTransformationMatrix (trs obj)))) with
        | None => None
        | Some below =>
            Some (EvNode n a b c d :: below ++
                  mesh_draw n (meshDrawer obj)
                    (MatrixMult a (getTransformationMatrix (trs obj)))
                    (MatrixMult b (getTransformationMatrix (trs obj)))
                    (MatrixMult c (getTransformationMatrix (trs obj)))
                    (MatrixMult d (getTransformationMatrix (trs obj))))
        end
    end.
Proof. reflexivity. Qed.

Lemma draw_part000_S fuel h n (a b c d : matrix) :
  draw_part000 (S fuel) h n a b c d =
    match h !! n with
    | None => None
    | Some obj =>
        match forEach (children obj) (fun child =>
                draw_part000 fuel h child
                  (MatrixMult a (getTransformationMatrix (trs obj)))
                  (MatrixMult b (getTransformationMatrix (trs obj)))
                  (MatrixMult c (getTransformationMatrix (trs obj)))
                  (MatrixMult d (getTransformationMatrix (trs obj)))) with
        | None => None
        | Some below =>
            Some (EvNode n a b c d ::
                  mesh_draw n (meshDrawer obj)
                    (MatrixMult a (getTransformationMatrix (trs obj)))
                    (MatrixMult b (getTransformationMatrix (trs obj)))
                    (MatrixMult c (getTransformationMatrix (trs obj)))
                    (MatrixMult d (getTransformationMatrix (trs obj)))
                  ++ below)
        end
    end.
Proof. reflexivity. Qed.

Lemma draw_newer_unchanged h m (t : TRS) p :
  children_bounded h -> children_increasing h -> p < length h ->
  forall fuel x (a b c d : matrix),
    p < x < length h ->
    draw fuel (constructor h m t (Some p)).1 x a b c d = draw fuel h x a b c d /\
    draw_part000 fuel (constructor h m t (Some p)).1 x a b c d
      = draw_part000 fuel h x a b c d.
Proof.
  intros Hb Hinc Hp. induction fuel as [|fuel IH]; intros x a b c d Hx; [done|].
  rewrite !draw_S, !draw_part000_S.
  rewrite constructor_lookup by (by intros ? [= <-]).
  rewrite decide_False by lia.
  destruct (h !! x) as [obj|] eqn:Hobj; simpl; [|done].
  rewrite decide_False by (intros [=]; lia). rewrite app_nil_r.
  assert (forall child, child ∈ children obj -> p < child < length h) as Hkids.
  { intros child Hc. pose proof (Hinc _ _ _ Hobj Hc). pose proof (Hb _ _ _ Hobj Hc). lia. }
  split.
  - erewrite forEach_ext_in; [reflexivity|]. intros child Hc. by apply IH, Hkids.
  - erewrite forEach_ext_in; [reflexivity|]. intros child Hc. by apply IH, Hkids.
Qed.

(** X9. In a store made by constructor calls alone, [new SceneNode(m, t,
    p)] changes the drawing of the parent [p] by the new leaf alone: the
    children that [p] had are drawn as before and in the same order, then
    the new node is entered with the matrices composed by [p] and its mesh,
    if any, is drawn with these multiplied by its own transform. In
    [src/meshDrawer.js] this is inserted before the call on the mesh of
    [p]; in [src/unnamed/part_000] it ends the trace. Nodes made after [p]
    are drawn as before. *)
Theorem constructor_appends_leaf h m (t : TRS) p obj fuel (a b c d : matrix) tr tr' :
  built h ->
  h !! p = Some obj ->
  draw (S (S fuel)) h p a b c d = Some tr ->
  draw_part000 (S (S fuel)) h p a b c d = Some tr' ->
  let h' := (constructor h m t (Some p)).1 in
  let L := getTransformationMatrix (trs obj) in
  let T := getTransformationMatrix t in
  let a' := MatrixMult a L in
  let b' := MatrixMult b L in
  let c' := MatrixMult c L in
  let d' := MatrixMult d L in
  let leaf :=
    EvNode (length h) a' b' c' d'
    :: mesh_draw (length h) m (MatrixMult a' T) (MatrixMult b' T)
         (MatrixMult c' T) (MatrixMult d' T) in
  (exists below,
     tr = EvNode p a b c d :: below ++ mesh_draw p (meshDrawer obj) a' b' c' d' /\
     draw (S (S fuel)) h' p a b c d
       = Some (EvNode p a b c d :: below ++ leaf
               ++ mesh_draw p (meshDrawer obj) a' b' c' d')) /\
  draw_part000 (S (S fuel)) h' p a b c d = Some (tr' ++ leaf) /\
  (forall f x (a b c d : matrix),
     p < x < length h ->
     draw f h' x a b c d = draw f h x a b c d /\
     draw_part000 f h' x a b c d = draw_part000 f h x a b c d).
Proof.
  intros Hbuilt Hobj Hd Hd' h' L T a' b' c' d' leaf.
  destruct (built_links h Hbuilt) as (Hb & _ & Hinc & _).
  pose proof (lookup_lt_Some _ _ _ Hobj) as Hp.
  assert (forall child, child ∈ children obj -> p < child < length h) as Hkids.
  { intros child Hc. pose proof (Hinc _ _ _ Hobj Hc). pose proof (Hb _ _ _ Hobj Hc). lia. }
  assert (h' !! p = Some (mkSceneNode (meshDrawer obj) (trs obj) (parent obj)
                            (children obj ++ [length h]))) as Hp'.
  { unfold h'. rewrite constructor_lookup by (by intros ? [= <-]).
    rewrite decide_False by lia. rewrite Hobj. simpl. by rewrite decide_True. }
  assert (h' !! length h = Some (mkSceneNode m t (Some p) [])) as Hnew.
  { unfold h'. rewrite constructor_lookup by (by intros ? [= <-]).
    by rewrite decide_True. }
  assert (draw (S fuel) h' (length h) a' b' c' d' = Some leaf) as Hleaf.
  { rewrite draw_S, Hnew. done. }
  assert (draw_part000 (S fuel) h' (length h) a' b' c' d' = Some leaf) as Hleaf'.
  { rewrite draw_part000_S, Hnew. simpl. by rewrite app_nil_r. }
  split; [|split].
  - rewrite draw_S in Hd.
    rewrite Hobj in Hd. fold L a' b' c' d' in Hd.
    destruct (forEach _ _) as [below|] eqn:Hbelow; [|discriminate].
    injection Hd as <-. exists below. split; [done|].
    rewrite draw_S.
    rewrite Hp'. cbn [children trs meshDrawer]. fold L a' b' c' d'.
    rewrite forEach_app.
    erewrite (forEach_ext_in (children obj));
      [|intros child Hc; apply (draw_newer_unchanged h m t p Hb Hinc Hp); by apply Hkids].
    rewrite Hbelow. cbn [forEach]. rewrite Hleaf. simpl.
    by rewrite app_nil_r, <- app_assoc.
  - rewrite draw_part000_S in Hd'.
    rewrite Hobj in Hd'. fold L a' b' c' d' in Hd'.
    destruct (forEach _ _) as [below|] eqn:Hbelow; [|discriminate].
    injection Hd' as <-.
    rewrite draw_part000_S.
    rewrite Hp'. cbn [children trs meshDrawer]. fold L a' b' c' d'.
    rewrite forEach_app.
    erewrite (forEach_ext_in (children obj));
      [|intros child Hc; apply (draw_newer_unchanged h m t p Hb Hinc Hp); by apply Hkids].
    rewrite Hbelow. cbn [forEach]. rewrite Hleaf'. simpl.
    by rewrite app_nil_r, <- !app_assoc.
  - intros f x a0 b0 c0 d0 Hx. by apply draw_newer_unchanged.
Qed.

End StoreTraversal.

(** * Further properties of the mesh drawer *)

Section MeshDrawerMore.

Context {matrix number f32array : Type}.
Variable Float32Array : list number -> f32array.
Variable isPowerOf2 : Z -> bool.

Local Abbreviation setMesh := (MeshDrawer.setMesh matrix Float32Array).
Local Abbreviation mdraw := (MeshDrawer.draw (matrix:=matrix) f32array).
Local Abbreviation setTexture := (MeshDrawer.setTexture matrix f32array isPowerOf2).
Local Abbreviation setTexture_second :=
  (MeshDrawer.setTexture_second matrix f32array isPowerOf2).
Local Abbreviation glstate := (MeshDrawer.glstate matrix f32array).

Implicit Types (this : MeshDrawer.t) (s : glstate).

Lemma thirds_between_checked :
  MeshDrawer.all_from
    (fun k => MeshDrawer.third_between 1 k && MeshDrawer.third_between 2 k)
    (2 ^ 16) 0 = true.
Proof. vm_compute. reflexivity. Qed.

(** X11. [setMesh] validates nothing. The triangle count comes from the
    positions alone, whatever the lengths of the texture coordinates and of
    the normals; and when the number of positions is [3 * k + 1] or
    [3 * k + 2] the stored count is a fraction, strictly between [k] and
    [k + 1] in the order of doubles (checked for every [k] below [2^16]),
    which [draw] passes to [gl.drawArrays] as it is. *)
Theorem setMesh_no_validation this (v t n t' n' : list number) (a b c d : matrix) :
  let this' := (setMesh this v t n).1 in
  MeshDrawer.numTriangles this' = MeshDrawer.numTriangles (setMesh this v t' n').1 /\
  (forall k r : nat,
     length v = 3 * k + r -> r = 1 \/ r = 2 -> k < 2 ^ 16 ->
     PrimFloat.ltb (MeshDrawer.number_of_nat k) (MeshDrawer.numTriangles this') = true /\
     PrimFloat.ltb (MeshDrawer.numTriangles this') (MeshDrawer.number_of_nat (k + 1))
       = true) /\
  MeshDrawer.drawn_counts (mdraw this' a b c d) = [MeshDrawer.numTriangles this'].
Proof.
  intros this'. split; [reflexivity|]. split; [|reflexivity].
  intros k r Hlen Hr Hk.
  pose proof (all_from_spec _ _ _ thirds_between_checked k Hk) as H.
  simpl in H. rewrite Z.add_0_l in H.
  apply andb_true_iff in H as [H1 H2].
  unfold this'. simpl. rewrite Hlen. unfold MeshDrawer.number_of_nat.
  replace (Z.of_nat (k + 1)) with (Z.of_nat k + 1)%Z by lia.
  destruct Hr as [-> | ->].
  - replace (Z.of_nat (3 * k + 1)) with (3 * Z.of_nat k + 1)%Z by lia.
    unfold MeshDrawer.third_between in H1. by apply andb_true_iff in H1.
  - replace (Z.of_nat (3 * k + 2)) with (3 * Z.of_nat k + 2)%Z by lia.
    unfold MeshDrawer.third_between in H2. by apply andb_true_iff in H2.
Qed.

Lemma run_app s (l1 l2 : list (MeshDrawer.glcall matrix f32array)) :
  MeshDrawer.run (MeshDrawer.run s l1) l2 = MeshDrawer.run s (l1 ++ l2).
Proof. unfold MeshDrawer.run. by rewrite fold_left_app. Qed.

(** X12. What [setMesh] uploads is what [draw] reads. Let the three
    buffers of the drawer be distinct and its three attribute locations be
    distinct. From any context, after the calls of [setMesh] followed by
    those of [draw], the position attribute is enabled and reads the
    positions in groups of 3, the normal attribute the normals in groups of
    3, and the texture coordinate attribute the texture coordinates in
    groups of 2. *)
Theorem setMesh_draw_sources this (v t n : list number) (a b c d : matrix) s :
  let bufs := MeshDrawer.buffers this in
  let locs := MeshDrawer.attribLocations this in
  MeshDrawer.position bufs <> MeshDrawer.normal bufs ->
  MeshDrawer.position bufs <> MeshDrawer.texCoord bufs ->
  MeshDrawer.normal bufs <> MeshDrawer.texCoord bufs ->
  MeshDrawer.position locs <> MeshDrawer.normal locs ->
  MeshDrawer.position locs <> MeshDrawer.texCoord locs ->
  MeshDrawer.normal locs <> MeshDrawer.texCoord locs ->
  let this' := (setMesh this v t n).1 in
  let s' := MeshDrawer.run s ((setMesh this v t n).2 ++ mdraw this' a b c d) in
  MeshDrawer.attribute_source s' (MeshDrawer.position locs)
    = Some (Float32Array v, 3%Z) /\
  MeshDrawer.attribute_source s' (MeshDrawer.normal locs)
    = Some (Float32Array n, 3%Z) /\
  MeshDrawer.attribute_source s' (MeshDrawer.texCoord locs)
    = Some (Float32Array t, 2%Z).
Proof.
  intros bufs locs Hb1 Hb2 Hb3 Hl1 Hl2 Hl3 this' s'.
  unfold s', this', MeshDrawer.attribute_source. simpl.
  unfold MeshDrawer.upd. fold bufs locs.
  repeat split; repeat (case_decide; try congruence).
Qed.

(** X13. From any context, [draw] leaves the program of the drawer in
    use, with the four matrices in its four matrix uniforms (their
    locations being distinct) and the light flag, as 0 or 1, in its flag
    uniform. It changes the contents of no buffer. *)
Theorem draw_sets_own_uniforms this (a b c d : matrix) s :
  let u := MeshDrawer.uniformLocations this in
  NoDup [MeshDrawer.mvp u; MeshDrawer.mv u; MeshDrawer.normalMV u;
         MeshDrawer.modelMatrix u] ->
  let s' := MeshDrawer.run s (mdraw this a b c d) in
  let p := MeshDrawer.prog this in
  MeshDrawer.currentProgram s' = Some p /\
  MeshDrawer.uniformMatrix s' p (MeshDrawer.mvp u) = Some a /\
  MeshDrawer.uniformMatrix s' p (MeshDrawer.mv u) = Some b /\
  MeshDrawer.uniformMatrix s' p (MeshDrawer.normalMV u) = Some c /\
  MeshDrawer.uniformMatrix s' p (MeshDrawer.modelMatrix u) = Some d /\
  MeshDrawer.uniformInt s' p (MeshDrawer.isLightSource_loc u)
    = Some (Z.b2z (MeshDrawer.isLightSource this)) /\
  (forall buffer, MeshDrawer.bufferContents s' buffer = MeshDrawer.bufferContents s buffer).
Proof.
  intros u Hnd s' p.
  apply NoDup_cons in Hnd as [H1 Hnd]. apply NoDup_cons in Hnd as [H2 Hnd].
  apply NoDup_cons in Hnd as [H3 _].
  apply not_elem_of_cons in H1 as [? H1]. apply not_elem_of_cons in H1 as [? H1].
  apply not_elem_of_cons in H1 as [? _]. apply not_elem_of_cons in H2 as [? H2].
  apply not_elem_of_cons in H2 as [? _]. apply not_elem_of_cons in H3 as [? _].
  unfold s'. simpl. unfold MeshDrawer.upd2, MeshDrawer.upd. fold u p.
  repeat split; repeat (case_decide; try congruence); try tauto.
Qed.

Lemma run_configure s (img : MeshDrawer.image) :
  MeshDrawer.run s (MeshDrawer.configure matrix f32array isPowerOf2 img) = s.
Proof. unfold MeshDrawer.configure. by destruct (_ && _). Qed.

(** X14. The two [setTexture] functions differ in where the sampler is
    set. From any context the first leaves the program of the drawer in use
    and its sampler uniform at 0. The second sets the sampler of the program
    that happens to be in use and selects none: the sampler of the drawer's
    own program is set only when that program is in use already, and is left
    as it was when another program, or none, is in use. Neither changes a
    buffer. *)
Theorem setTexture_sampler this (img : MeshDrawer.image) s :
  let p := MeshDrawer.prog this in
  let sampler := MeshDrawer.tex (MeshDrawer.uniformLocations this) in
  let s1 := MeshDrawer.run s (setTexture this img) in
  let s2 := MeshDrawer.run s (setTexture_second this img) in
  MeshDrawer.currentProgram s1 = Some p /\
  MeshDrawer.uniformInt s1 p sampler = Some 0%Z /\
  MeshDrawer.currentProgram s2 = MeshDrawer.currentProgram s /\
  (MeshDrawer.currentProgram s = Some p ->
     MeshDrawer.uniformInt s2 p sampler = Some 0%Z) /\
  (MeshDrawer.currentProgram s <> Some p ->
     forall location,
       MeshDrawer.uniformInt s2 p location = MeshDrawer.uniformInt s p location) /\
  MeshDrawer.bufferContents s1 = MeshDrawer.bufferContents s /\
  MeshDrawer.bufferContents s2 = MeshDrawer.bufferContents s.
Proof.
  intros p sampler s1 s2.
  unfold s1, s2, MeshDrawer.setTexture, MeshDrawer.setTexture_second.
  rewrite <- !run_app, !run_configure. simpl.
  unfold MeshDrawer.upd2, MeshDrawer.upd. fold p sampler.
  split; [done|]. split; [by repeat case_decide|].
  destruct (MeshDrawer.currentProgram s) as [q|] eqn:Hq; simpl.
  - split; [done|]. split; [|split; [|done]].
    + intros [= ->]. by repeat case_decide.
    + intros Hne location. case_decide; [congruence | done].
  - rewrite Hq. by repeat split.
Qed.

End MeshDrawerMore.

(** * The concrete scene, continued *)

Lemma Example_mult_assoc (X Y Z : Example.mat4) :
  Example.mult (Example.mult X Y) Z = Example.mult X (Example.mult Y Z).
Proof.
  destruct X as [[[[[[x11 x12] x13] x14] [[[x21 x22] x23] x24]] [[[x31 x32] x33] x34]]
                 [[[x41 x42] x43] x44]].
  destruct Y as [[[[[[y11 y12] y13] y14] [[[y21 y22] y23] y24]] [[[y31 y32] y33] y34]]
                 [[[y41 y42] y43] y44]].
  destruct Z as [[[[[[z11 z12] z13] z14] [[[z21 z22] z23] z24]] [[[z31 z32] z33] z34]]
                 [[[z41 z42] z43] z44]].
  unfold Example.mult, Example.row_times, Example.column, Example.dot.
  repeat match goal with |- (_, _) = (_, _) => f_equal end; ring.
Qed.

Lemma Example_pair_scene_built : built Example.pair_scene.
Proof.
  unfold Example.pair_scene. cbv zeta.
  apply built_child; [|simpl; lia]. apply built_root. apply built_empty.
Qed.

Lemma draw_ignores_parent_witness :
  let I := Example.identity in
  let h1 := Example.pair_scene in
  let h2 := [mkSceneNode (Some 10) Example.T0 (Some 1) [1];
             mkSceneNode (Some 11) Example.T1 None []] in
  (forall x, option_Forall2 same_below (h1 !! x) (h2 !! x)) /\
  draw Example.mult Example.getTransformationMatrix 2 h1 0 I I I I
    = draw Example.mult Example.getTransformationMatrix 2 h2 0 I I I I.
Proof.
  intros I h1 h2.
  assert (forall x, option_Forall2 same_below (h1 !! x) (h2 !! x)) as Hsame.
  { intros [|[|x]]; simpl; constructor; by repeat split. }
  split; [exact Hsame|].
  exact (proj1 (draw_ignores_parent Example.mult Example.getTransformationMatrix
                  h1 h2 2 0 I I I I Hsame)).
Defined.

Lemma constructor_paths_draw_same_witness :
  let I := Example.identity in
  0 < length Example.pair_scene /\
  draw Example.mult Example.getTransformationMatrix 3
    (constructor Example.pair_scene (Some 12) Example.T2 (Some 0)).1 0 I I I I
  = draw Example.mult Example.getTransformationMatrix 3
      (addChild (constructor Example.pair_scene (Some 12) Example.T2 None).1 0 2)
      0 I I I I.
Proof.
  intros I. assert (0 < length Example.pair_scene) as Hlt by (simpl; lia).
  split; [exact Hlt|].
  exact (proj1 (constructor_paths_draw_same Example.mult Example.getTransformationMatrix
                  Example.pair_scene (Some 12) Example.T2 0 3 0 I I I I Hlt)).
Defined.

Lemma draw_diverges_on_cycle_witness :
  let I := Example.identity in
  let P := fun x : nat => x = 0 \/ x = 1 in
  (forall x obj, P x -> Example.cyclic_scene !! x = Some obj ->
                 exists c, c ∈ children obj /\ P c) /\
  P 0 /\
  draw Example.mult Example.getTransformationMatrix 1000 Example.cyclic_scene 0
    I I I I = None.
Proof.
  intros I P.
  assert (forall x obj, P x -> Example.cyclic_scene !! x = Some obj ->
                        exists c, c ∈ children obj /\ P c) as Hcycle.
  { intros x obj [->| ->] Hobj; simpl in Hobj; injection Hobj as <-; simpl.
    - exists 1. split; [left | by right].
    - exists 0. split; [left | by left]. }
  split; [exact Hcycle|]. split; [by left|].
  exact (proj1 (draw_diverges_on_cycle Example.mult Example.getTransformationMatrix
                  P Example.cyclic_scene 0 Hcycle (or_introl eq_refl) 1000 I I I I)).
Defined.

Lemma draw_left_mult_witness :
  let I := Example.identity in
  let A := Example.getTransformationMatrix Example.T2 in
  (forall X Y Z, Example.mult (Example.mult X Y) Z = Example.mult X (Example.mult Y Z)) /\
  draw Example.mult Example.getTransformationMatrix 4 Example.scene 0
    (Example.mult A I) (Example.mult I I) (Example.mult I I) (Example.mult A I)
  = map (left_mult Example.mult A I I A)
      <$> draw Example.mult Example.getTransformationMatrix 4 Example.scene 0 I I I I.
Proof.
  intros I A. split; [exact Example_mult_assoc|].
  exact (proj1 (draw_left_mult Example.mult Example.getTransformationMatrix
                  4 Example.scene 0 A I I A I I I I Example_mult_assoc)).
Defined.

Lemma constructor_paths_differ_in_parent_witness :
  0 < length Example.pair_scene /\
  parent <$> (constructor Example.pair_scene (Some 12) Example.T2 (Some 0)).1 !! 2
    = Some (Some 0) /\
  parent <$> addChild (constructor Example.pair_scene (Some 12) Example.T2 None).1 0 2 !! 2
    = Some None.
Proof.
  assert (0 < length Example.pair_scene) as Hlt by (simpl; lia).
  split; [exact Hlt|].
  destruct (constructor_paths_differ_in_parent Example.pair_scene (Some 12) Example.T2
              0 Hlt) as (H1 & H2 & _).
  split.
  - exact (f_equal (fmap parent) H1).
  - exact (f_equal (fmap parent) H2).
Defined.

Lemma built_draw_returns_witness :
  let I := Example.identity in
  built Example.scene /\ 0 < length Example.scene /\
  exists tr,
    draw Example.mult Example.getTransformationMatrix 6 Example.scene 0 I I I I
      = Some tr /\
    NoDup (entered tr).
Proof.
  intros I. assert (0 < length Example.scene) as Hlt by (simpl; lia).
  split; [exact Example_scene_built|]. split; [exact Hlt|].
  destruct (built_draw_returns Example.mult Example.getTransformationMatrix
              Example.scene 0 I I I I Example_scene_built Hlt)
    as (tr & _ & Hd & _ & _ & Hnd & _).
  exists tr. split; [exact Hd | exact Hnd].
Defined.

Lemma built_children_agree_with_parent_witness :
  built Example.scene /\
  (forall n obj p, Example.scene !! n = Some obj -> parent obj = Some p -> p < n).
Proof.
  split; [exact Example_scene_built|].
  exact (proj2 (proj2 (built_children_agree_with_parent Example.scene
                         Example_scene_built))).
Defined.

Lemma draw_follows_unfolding_witness :
  let I := Example.identity in
  unfold 3 Example.shared_scene 0 = Some Example.shared_tree /\
  exists tr,
    draw Example.mult Example.getTransformationMatrix 3 Example.shared_scene 0
      I I I I = Some tr /\
    entered tr = [0; 1; 3; 2; 3] /\
    mesh_calls tr ≡ₚ [(0, 10); (1, 11); (3, 13); (3, 13)].
Proof.
  intros I. split; [reflexivity|].
  destruct (draw_follows_unfolding Example.mult Example.getTransformationMatrix
              3 Example.shared_scene 0 Example.shared_tree I I I I eq_refl)
    as (tr & _ & Hd & _ & He & _ & Hm & _).
  exists tr. split; [exact Hd|]. split; [exact He | exact Hm].
Defined.

Lemma draw_depth_is_height_witness :
  let I := Example.identity in
  unfold 4 Example.scene 0 = Some Example.scene_tree /\
  height Example.scene_tree = 4 /\
  is_Some (draw Example.mult Example.getTransformationMatrix 4 Example.scene 0
             I I I I) /\
  ~ is_Some (draw Example.mult Example.getTransformationMatrix 3 Example.scene 0
               I I I I).
Proof.
  intros I. split; [reflexivity|]. split; [reflexivity|].
  split.
  - apply (draw_depth_is_height Example.mult Example.getTransformationMatrix
             4 Example.scene 0 Example.scene_tree 4 I I I I eq_refl).
    simpl. lia.
  - intros Hsome.
    apply (draw_depth_is_height Example.mult Example.getTransformationMatrix
             4 Example.scene 0 Example.scene_tree 3 I I I I eq_refl) in Hsome.
    simpl in Hsome. lia.
Defined.

Lemma constructor_appends_leaf_witness :
  let I := Example.identity in
  let L := Example.getTransformationMatrix Example.T0 in
  let L1 := Example.mult L (Example.getTransformationMatrix Example.T1) in
  let L2 := Example.mult L (Example.getTransformationMatrix Example.T2) in
  built Example.pair_scene /\
  draw Example.mult Example.getTransformationMatrix 2
    (constructor Example.pair_scene (Some 12) Example.T2 (Some 0)).1 0 I I I I
  = Some [EvNode 0 I I I I;
          EvNode 1 L L L L; EvMesh 1 11 L1 L1 L1 L1;
          EvNode 2 L L L L; EvMesh 2 12 L2 L2 L2 L2;
          EvMesh 0 10 L L L L].
Proof.
  intros I L L1 L2. split; [exact Example_pair_scene_built|].
  destruct (constructor_appends_leaf Example.mult Example.getTransformationMatrix
              Example.pair_scene (Some 12) Example.T2 0 _ 0 I I I I _ _
              Example_pair_scene_built eq_refl eq_refl eq_refl)
    as ((below & Hold & Hnew) & _ & _).
  simpl in Hold. injection Hold as Hold.
  apply (app_inj_tail [_; _] below) in Hold as [<- _]. exact Hnew.
Defined.

Lemma setMesh_no_validation_witness :
  let this' :=
    (MeshDrawer.setMesh Example.mat4 (fun l : list Z => l) Example.drawer
       [0; 0; 0; 1; 0; 0; 0; 1; 0; 5]%Z [0; 0]%Z []).1 in
  length [0; 0; 0; 1; 0; 0; 0; 1; 0; 5]%Z = 3 * 3 + 1 /\
  PrimFloat.ltb (MeshDrawer.number_of_nat 3) (MeshDrawer.numTriangles this') = true /\
  PrimFloat.ltb (MeshDrawer.numTriangles this') (MeshDrawer.number_of_nat 4) = true.
Proof.
  intros this'. split; [reflexivity|].
  exact (proj1 (proj2 (setMesh_no_validation (matrix:=Example.mat4)
                         (fun l : list Z => l) Example.drawer
                         [0; 0; 0; 1; 0; 0; 0; 1; 0; 5]%Z [0; 0]%Z [] [] []
                         Example.identity Example.identity Example.identity
                         Example.identity))
           3 1 eq_refl (or_introl eq_refl)
           ltac:(apply Nat.ltb_lt; vm_compute; reflexivity)).
Defined.

Lemma setMesh_draw_sources_witness :
  let I := Example.identity in
  let up := MeshDrawer.setMesh Example.mat4 (fun l : list Z => l) Example.drawer
              [0; 0; 0; 1; 0; 0; 0; 1; 0]%Z [0; 0; 1; 0; 0; 1]%Z
              [0; 0; 1; 0; 0; 1; 0; 0; 1]%Z in
  let s' := MeshDrawer.run Example.blank
              (up.2 ++ MeshDrawer.draw (list Z) up.1 I I I I) in
  MeshDrawer.attribute_source s' 0 = Some ([0; 0; 0; 1; 0; 0; 0; 1; 0]%Z, 3%Z) /\
  MeshDrawer.attribute_source s' 1 = Some ([0; 0; 1; 0; 0; 1; 0; 0; 1]%Z, 3%Z) /\
  MeshDrawer.attribute_source s' 2 = Some ([0; 0; 1; 0; 0; 1]%Z, 2%Z).
Proof.
  intros I up s'.
  apply (setMesh_draw_sources (fun l : list Z => l) Example.drawer
           [0; 0; 0; 1; 0; 0; 0; 1; 0]%Z [0; 0; 1; 0; 0; 1]%Z
           [0; 0; 1; 0; 0; 1; 0; 0; 1]%Z I I I I Example.blank);
    simpl; lia.
Defined.

Lemma draw_sets_own_uniforms_witness :
  let I := Example.identity in
  let A := Example.getTransformationMatrix Example.T0 in
  let s' := MeshDrawer.run Example.blank (MeshDrawer.draw (list Z) Example.drawer A I I A) in
  NoDup [0; 1; 2; 3] /\
  MeshDrawer.currentProgram s' = Some 1 /\
  MeshDrawer.uniformMatrix s' 1 0 = Some A /\
  MeshDrawer.uniformInt s' 1 4 = Some 0%Z.
Proof.
  intros I A s'.
  assert (NoDup [0; 1; 2; 3]) as Hnd.
  { apply (bool_decide_unpack _). by vm_compute. }
  split; [exact Hnd|].
  destruct (draw_sets_own_uniforms (f32array:=list Z) Example.drawer A I I A
              Example.blank Hnd) as (Hp & Hmvp & _ & _ & _ & Hflag & _).
  split; [exact Hp|]. split; [exact Hmvp | exact Hflag].
Defined.

Lemma setTexture_sampler_witness :
  let img := MeshDrawer.mkImage 100 100 in
  let other :=
    MeshDrawer.mkGlstate (matrix:=Example.mat4) (f32array:=list Z) (Some 7) None
      (fun _ => None) (fun _ => None) (fun _ => false)
      (fun _ _ => None) (fun _ _ => None) in
  MeshDrawer.uniformInt
    (MeshDrawer.run other
       (MeshDrawer.setTexture Example.mat4 (list Z) Example.isPowerOf2 Example.drawer img))
    1 5 = Some 0%Z /\
  MeshDrawer.uniformInt
    (MeshDrawer.run other
       (MeshDrawer.setTexture_second Example.mat4 (list Z) Example.isPowerOf2
          Example.drawer img))
    1 5 = None.
Proof.
  intros img other.
  destruct (setTexture_sampler Example.isPowerOf2 Example.drawer img other)
    as (_ & Hfirst & _ & _ & Hsecond & _).
  split; [exact Hfirst|].
  exact (Hsecond ltac:(discriminate) 5).
Defined.
